(** * Sm_Predictions: the friend-recommendation engine of Sm_Prediction.cpp

    A shallow embedding of [class SocialNetwork] and the proofs of its
    specification.

    Modelling conventions.
    - [std::unordered_map<int, std::unordered_set<int>>] is a finite map from
      identifiers to finite sets of identifiers ([gmap Z (gset Z)]).
      Range-based [for] over an unordered container walks [elements] (resp.
      [map_to_list]); the C++ standard leaves that order unspecified, and no
      statement below depends on it other than through membership.
    - Identifiers are [int]s on which no arithmetic is done.  The other
      [int]s count hops or friends; they stay below the number of users held
      in memory and are kept in [Z].  The sentinel [INT_MAX] is never
      incremented: where [advancedRecommendation] adds 1 to a distance, that
      distance is 2 ([friend_of_friend_distance]).
    - [double] is IEEE 754 binary64, computed with the reference
      implementation of [SpecFloat].
    - The two [while (!queue.empty())] loops are driven by a fuel counter;
      the entry points supply a fuel computed from the graph and it is proved
      to suffice. *)

From Stdlib Require Import ZArith Floats.SpecFloat.
From stdpp Require Import gmap list sorting.

Local Open Scope Z_scope.

(** ** The adjacency structure *)

Abbreviation Graph := (gmap Z (gset Z)).

(** [std::numeric_limits<int>::max()] *)
Definition INT_MAX : Z := 2147483647.
Definition INT_MIN : Z := -2147483648.

(** [graph[k]] read as an rvalue: [operator[]] value-initialises the entry
    when the key is missing, so the neighbour set read is empty. *)
Definition subscript (graph : Graph) (k : Z) : gset Z :=
  default ∅ (graph !! k).

(** [graph[k].insert(x)] *)
Definition subscript_insert (graph : Graph) (k x : Z) : Graph :=
  <[k := {[x]} ∪ subscript graph k]> graph.

(** [graph[k].erase(x)] *)
Definition subscript_erase (graph : Graph) (k x : Z) : Graph :=
  <[k := subscript graph k ∖ {[x]}]> graph.

Definition addUser (graph : Graph) (userId : Z) : Graph :=
  match graph !! userId with
  | None => <[userId := ∅]> graph
  | Some _ => graph
  end.

Definition addConnection (graph : Graph) (userId1 userId2 : Z) : Graph :=
  let graph := addUser graph userId1 in
  let graph := addUser graph userId2 in
  let graph := subscript_insert graph userId1 userId2 in
  subscript_insert graph userId2 userId1.

Definition removeConnection (graph : Graph) (userId1 userId2 : Z) : Graph :=
  if decide (is_Some (graph !! userId1) ∧ is_Some (graph !! userId2)) then
    let graph := subscript_erase graph userId1 userId2 in
    subscript_erase graph userId2 userId1
  else graph.

Definition getFriends (graph : Graph) (userId : Z) : gset Z :=
  match graph !! userId with
  | Some friends => friends
  | None => ∅
  end.

Definition getTotalUsers (graph : Graph) : nat := size graph.

(** The mutating interface, as a driver can call it. *)
Inductive mutation : Type :=
| AddUser (userId : Z)
| AddConnection (userId1 userId2 : Z)
| RemoveConnection (userId1 userId2 : Z).

Definition apply_mutation (graph : Graph) (m : mutation) : Graph :=
  match m with
  | AddUser u => addUser graph u
  | AddConnection a b => addConnection graph a b
  | RemoveConnection a b => removeConnection graph a b
  end.

(** The state of a freshly constructed engine after a sequence of calls. *)
Definition run (ms : list mutation) : Graph := foldl apply_mutation ∅ ms.

(** ** Outcomes of the queries *)

Inductive failure : Type :=
| out_of_range   (* thrown by [unordered_map::at] on a missing key *)
| out_of_fuel    (* the loop did not finish within the fuel given *)
| bad_cast.      (* [static_cast<int>] of a double that no [int] represents *)

Inductive outcome (A : Type) : Type :=
| Returns (a : A)
| Fails (e : failure).
Arguments Returns {A} a.
Arguments Fails {A} e.

#[global] Instance outcome_ret : MRet outcome := λ A a, Returns a.
#[global] Instance outcome_bind : MBind outcome := λ A B k m,
  match m with
  | Returns a => k a
  | Fails e => Fails e
  end.

(** A [for] loop whose body may fail. *)
Fixpoint for_each {S A} (body : S → A → outcome S) (s : S) (l : list A)
  : outcome S :=
  match l with
  | [] => Returns s
  | x :: l => s' ← body s x; for_each body s' l
  end.

(** ** Method 1: common friends *)

(** [m[k]++] on an [unordered_map<int,int>] *)
Definition increment (m : gmap Z Z) (k : Z) : gmap Z Z :=
  <[k := default 0 (m !! k) + 1]> m.

(** The comparator [a.second > b.second]. *)
Definition second_gt (a b : Z * Z) : Prop := a.2 > b.2.
(** The comparator [a.second < b.second]. *)
Definition second_lt (a b : Z * Z) : Prop := a.2 < b.2.

#[global] Instance second_gt_dec : RelDecision second_gt :=
  λ a b, decide (a.2 > b.2).
#[global] Instance second_lt_dec : RelDecision second_lt :=
  λ a b, decide (a.2 < b.2).

Definition count_friend_of_friend (userId : Z) (userFriends : gset Z)
    (potentialFriends : gmap Z Z) (friendOfFriend : Z) : gmap Z Z :=
  if decide (friendOfFriend = userId ∨ friendOfFriend ∈ userFriends)
  then potentialFriends
  else increment potentialFriends friendOfFriend.

Definition common_friend_counts (graph : Graph) (userId : Z) : gmap Z Z :=
  let userFriends := getFriends graph userId in
  foldl (λ potentialFriends currentFriend,
           foldl (count_friend_of_friend userId userFriends) potentialFriends
                 (elements (getFriends graph currentFriend)))
        ∅ (elements userFriends).

Definition recommendByCommonFriends (graph : Graph) (userId : Z)
  : list (Z * Z) :=
  merge_sort second_gt (map_to_list (common_friend_counts graph userId)).

(** ** Breadth-first traversal *)

(** Every identifier that occurs in some neighbour set.  A traversal only
    ever enqueues its start and members of this set, which bounds the number
    of iterations of the [while] loops. *)
Definition all_neighbors (graph : Graph) : gset Z :=
  ⋃ (map_to_list graph).*2.

Definition bfs_fuel (graph : Graph) : nat :=
  S (S (size (all_neighbors graph))).

(** ** Method 2: network distance *)

Record traversal : Type := Traversal {
  distances : gmap Z Z;
  visited : gset Z;
  queue : list (Z * Z)
}.

(** The body of [for (int neighbor : getFriends(currentUser))].  The
    right operand of [&&] is evaluated only when the left one holds, and
    [graph.at(userId)] throws when [userId] is not a key. *)
Definition discover (graph : Graph) (userId currentDistance : Z)
    (st : traversal) (neighbor : Z) : outcome traversal :=
  if decide (neighbor ∈ visited st) then Returns st
  else
    let visited' := {[neighbor]} ∪ visited st in
    let queue' := queue st ++ [(neighbor, currentDistance + 1)] in
    if decide (neighbor ≠ userId) then
      match graph !! userId with
      | None => Fails out_of_range
      | Some direct =>
          if decide (neighbor ∈ direct)
          then Returns (Traversal (distances st) visited' queue')
          else Returns (Traversal
                          (<[neighbor := currentDistance + 1]> (distances st))
                          visited' queue')
      end
    else Returns (Traversal (distances st) visited' queue').

Fixpoint distance_loop (fuel : nat) (graph : Graph) (userId maxDistance : Z)
    (st : traversal) : outcome (gmap Z Z) :=
  match fuel with
  | O => Fails out_of_fuel
  | S fuel =>
      match queue st with
      | [] => Returns (distances st)
      | (currentUser, currentDistance) :: rest =>
          if decide (currentDistance > maxDistance)
          then Returns (distances st)
          else
            st' ← for_each (discover graph userId currentDistance)
                           (Traversal (distances st) (visited st) rest)
                           (elements (getFriends graph currentUser));
            distance_loop fuel graph userId maxDistance st'
      end
  end.

Definition recommendByNetworkDistance (graph : Graph)
    (userId maxDistance : Z) : outcome (list (Z * Z)) :=
  distances ← distance_loop (bfs_fuel graph) graph userId maxDistance
                            (Traversal ∅ {[userId]} [(userId, 0)]);
  Returns (merge_sort second_lt (map_to_list distances)).

(** ** Pairwise distance helper *)

Definition enqueue_unvisited (distance : Z) (st : gset Z * list (Z * Z))
    (neighbor : Z) : gset Z * list (Z * Z) :=
  if decide (neighbor ∈ st.1) then st
  else ({[neighbor]} ∪ st.1, st.2 ++ [(neighbor, distance + 1)]).

Fixpoint search_loop (fuel : nat) (graph : Graph) (userId2 : Z)
    (visited : gset Z) (queue : list (Z * Z)) : outcome Z :=
  match fuel with
  | O => Fails out_of_fuel
  | S fuel =>
      match queue with
      | [] => Returns INT_MAX
      | (currentUser, distance) :: rest =>
          if decide (currentUser = userId2) then Returns distance
          else
            let st := foldl (enqueue_unvisited distance) (visited, rest)
                            (elements (getFriends graph currentUser)) in
            search_loop fuel graph userId2 st.1 st.2
      end
  end.

Definition getNetworkDistance (graph : Graph) (userId1 userId2 : Z)
  : outcome Z :=
  search_loop (bfs_fuel graph) graph userId2 {[userId1]} [(userId1, 0)].

(** ** IEEE 754 binary64 *)

Module Double.

Definition prec : Z := 53.
Definition emax : Z := 1024.

Definition t : Type := spec_float.

(** conversion [int] to [double]; exact for every 32-bit integer *)
Definition of_int (z : Z) : t := binary_normalize prec emax z 0 false.

(** a value-initialised [double] *)
Definition zero : t := S754_zero false.
(** the literal [1.0] *)
Definition one : t := of_int 1.

Definition add : t → t → t := SFadd prec emax.
Definition div : t → t → t := SFdiv prec emax.

(** The integer part of a finite value, rounding toward zero. *)
Definition truncate (s : bool) (m : positive) (e : Z) : Z :=
  let magnitude :=
    if decide (0 ≤ e) then Z.pos m * 2 ^ e else Z.pos m / 2 ^ (- e) in
  if s then - magnitude else magnitude.

(** [static_cast<int>(x)]: the value truncated toward zero; the conversion
    is undefined when the truncated value is not representable in [int],
    which covers infinities and NaN. *)
Definition to_int (x : t) : outcome Z :=
  match x with
  | S754_zero _ => Returns 0
  | S754_finite s m e =>
      let z := truncate s m e in
      if decide (INT_MIN ≤ z ≤ INT_MAX) then Returns z else Fails bad_cast
  | S754_infinity _ | S754_nan => Fails bad_cast
  end.

(** The sign bit is clear (NaN carries no sign). *)
Definition sign_clear (x : t) : Prop :=
  match x with
  | S754_zero s | S754_infinity s | S754_finite s _ _ => s = false
  | S754_nan => True
  end.

End Double.

(** ** Advanced recommendation *)

(** The loop [for (int commonFriend : userFriends)] counting the friends of
    the user that the candidate also lists. *)
Definition count_common (graph : Graph) (userFriends : gset Z)
    (friendOfFriend : Z) : Z :=
  foldl (λ commonFriends commonFriend,
           if decide (commonFriend ∈ getFriends graph friendOfFriend)
           then commonFriends + 1 else commonFriends)
        0 (elements userFriends).

(** [scores[k] += score] on an [unordered_map<int,double>] *)
Definition accumulate (scores : gmap Z Double.t) (k : Z) (score : Double.t)
  : gmap Z Double.t :=
  <[k := Double.add (default Double.zero (scores !! k)) score]> scores.

Definition score_friend_of_friend (graph : Graph) (userId : Z)
    (userFriends : gset Z) (scores : gmap Z Double.t) (friendOfFriend : Z)
  : outcome (gmap Z Double.t) :=
  if decide (friendOfFriend = userId ∨ friendOfFriend ∈ userFriends)
  then Returns scores
  else
    let commonFriends := count_common graph userFriends friendOfFriend in
    networkDistance ← getNetworkDistance graph userId friendOfFriend;
    let score :=
      Double.add (Double.of_int (commonFriends * 2))
                 (Double.div Double.one (Double.of_int (networkDistance + 1)))
    in
    Returns (accumulate scores friendOfFriend score).

Definition recommendation_scores (graph : Graph) (userId : Z)
  : outcome (gmap Z Double.t) :=
  let userFriends := getFriends graph userId in
  for_each (λ scores currentFriend,
              for_each (score_friend_of_friend graph userId userFriends)
                       scores (elements (getFriends graph currentFriend)))
           ∅ (elements userFriends).

Definition truncate_score (p : Z * Double.t) : outcome (Z * Z) :=
  z ← Double.to_int p.2; Returns (p.1, z).

Fixpoint truncate_scores (l : list (Z * Double.t)) : outcome (list (Z * Z)) :=
  match l with
  | [] => Returns []
  | p :: l =>
      r ← truncate_score p;
      rs ← truncate_scores l;
      Returns (r :: rs)
  end.

(** [maxDistance] is accepted and not used. *)
Definition advancedRecommendation (graph : Graph) (userId maxDistance : Z)
  : outcome (list (Z * Z)) :=
  scores ← recommendation_scores graph userId;
  recommendations ← truncate_scores (map_to_list scores);
  Returns (merge_sort second_gt recommendations).

(** ** Notions used by the specification *)

(** Connections are mutual. *)
Definition mutual (graph : Graph) : Prop :=
  ∀ a b, b ∈ getFriends graph a ↔ a ∈ getFriends graph b.

(** Every listed neighbour is itself a user. *)
Definition closed (graph : Graph) : Prop :=
  ∀ a b, b ∈ getFriends graph a → is_Some (graph !! b).

(** [hops graph a b n]: [b] is reached from [a] by following [n]
    connections. *)
Inductive hops (graph : Graph) (a : Z) : Z → nat → Prop :=
| hops_here : hops graph a a 0
| hops_next b c n :
    hops graph a b n → c ∈ getFriends graph b → hops graph a c (S n).

(** [n] is the shortest-path hop count from [a] to [b]. *)
Definition shortest (graph : Graph) (a b : Z) (n : nat) : Prop :=
  hops graph a b n ∧ ∀ m, hops graph a b m → (n ≤ m)%nat.

Definition scenario : Graph :=
  run [AddConnection 1 2; AddConnection 1 3; AddConnection 2 4;
       AddConnection 3 4; AddConnection 3 5; AddConnection 4 5;
       AddConnection 4 6].

Definition chain : Graph :=
  run [AddConnection 1 2; AddConnection 2 3; AddConnection 3 4].

(** ** Loop invariants *)

(** Method 1: every key of [potentialFriends] is a genuine candidate, a
    friend of some friend of the user, with a positive count. *)
Definition candidates_only (graph : Graph) (userId : Z)
    (potentialFriends : gmap Z Z) : Prop :=
  ∀ candidate count, potentialFriends !! candidate = Some count →
    candidate ≠ userId ∧ (candidate ∉ getFriends graph userId) ∧ 0 < count ∧
    ∃ friend, friend ∈ getFriends graph userId ∧
              candidate ∈ getFriends graph friend.

(** The number of [while] iterations still to come is at most the length of
    the queue plus the number of identifiers not yet visited. *)
Definition pending (U V : gset Z) (q : list (Z * Z)) : nat :=
  (length q + size (U ∖ V))%nat.

(** The queue holds users of one level followed by users of the next. *)
Definition two_level (k : Z) (q : list (Z * Z)) : Prop :=
  ∃ q1 q2, q = q1 ++ q2 ∧
    Forall (λ e, e.2 = k) q1 ∧ Forall (λ e, e.2 = k + 1) q2.

(** [getNetworkDistance(a, target)], at the [while] test: queued users carry
    their shortest hop count, and a visited user no longer queued is not the
    target and has all its neighbours visited. *)
Record search_inv (graph : Graph) (a target : Z)
    (V : gset Z) (q : list (Z * Z)) : Prop := SearchInv {
  inv_source : a ∈ V;
  inv_queue : ∀ v d, (v, d) ∈ q →
    v ∈ V ∧ ∃ n, d = Z.of_nat n ∧ shortest graph a v n;
  inv_levels : ∃ k, two_level k q;
  inv_done : ∀ v, v ∈ V →
    v ∈ q.*1 ∨ (v ≠ target ∧ ∀ x, x ∈ getFriends graph v → x ∈ V)
}.
Arguments inv_source {graph a target V q} _.
Arguments inv_queue {graph a target V q} _ v d _.
Arguments inv_levels {graph a target V q} _.
Arguments inv_done {graph a target V q} _ v _.

(** Method 2: every distance recorded is at most one more than
    [maxDistance]. *)
Definition recorded_within (maxDistance : Z) (distances : gmap Z Z) : Prop :=
  ∀ candidate d, distances !! candidate = Some d → d ≤ maxDistance + 1.

(** Advanced recommendation: every accumulated score has its sign bit
    clear. *)
Definition scores_sign_clear (scores : gmap Z Double.t) : Prop :=
  ∀ candidate score, scores !! candidate = Some score →
    Double.sign_clear score.

(** ** Notions used by the further properties *)

(** Orders in which the three result sequences come out. *)
Definition not_below (a b : Z * Z) : Prop := b.2 ≤ a.2.
Definition not_above (a b : Z * Z) : Prop := a.2 ≤ b.2.

(** The friends of [userId] that list [candidate]: the two-hop paths from
    [userId] to [candidate]. *)
Definition intermediaries (graph : Graph) (userId candidate : Z) : gset Z :=
  filter (λ friend, candidate ∈ getFriends graph friend)
         (getFriends graph userId).

(** The score one encounter of [candidate] contributes in
    [advancedRecommendation]: [commonFriends * 2 + 1.0 / (2 + 1)], the
    candidate being two hops away. *)
Definition encounter_score (graph : Graph) (userId candidate : Z) : Double.t :=
  Double.add
    (Double.of_int
       (Z.of_nat (size (getFriends graph userId ∩ getFriends graph candidate))
        * 2))
    (Double.div Double.one (Double.of_int (2 + 1))).

(** [k] additions of [score] to a value-initialised double. *)
Definition repeated_sum (k : nat) (score : Double.t) : Double.t :=
  Nat.iter k (λ acc, Double.add acc score) Double.zero.

(** [recommendByNetworkDistance(userId, _)], at the [while] test, [direct]
    being the neighbour set that [graph.at(userId)] reads: a distance is
    recorded for exactly the visited users that are neither [userId] nor in
    [direct], and it is their shortest hop count. *)
Record walk_inv (graph : Graph) (userId : Z) (direct : gset Z)
    (st : traversal) : Prop := WalkInv {
  walk_sound : ∀ c d, distances st !! c = Some d →
    c ≠ userId ∧ (c ∉ direct) ∧
    ∃ n, d = Z.of_nat n ∧ shortest graph userId c n;
  walk_complete : ∀ c, c ∈ visited st →
    c = userId ∨ c ∈ direct ∨ is_Some (distances st !! c);
  walk_bound : ∀ c, c ∈ visited st → c = userId ∨ c ∈ all_neighbors graph
}.
Arguments walk_sound {graph userId direct st} _ c d _.
Arguments walk_complete {graph userId direct st} _ c _.
Arguments walk_bound {graph userId direct st} _ c _.

(** ** The driver *)

(** The first half of [demonstrateSocialNetwork], on the values read from
    the input: users [0 .. users - 1] are added, then one connection per
    pair read. *)
Definition build_network (users : Z) (connections : list (Z * Z)) : Graph :=
  foldl (λ socialNetwork c, addConnection socialNetwork c.1 c.2)
        (foldl addUser ∅ (seqZ 0 users)) connections.

(** What the second half prints for one user: the three sequences, in the
    order they are printed. *)
Record recommendations : Type := Recommendations {
  for_user : Z;
  by_common_friends : list (Z * Z);
  by_network_distance : list (Z * Z);
  by_score : list (Z * Z)
}.

Definition recommend (socialNetwork : Graph) (maxDistance i : Z)
  : outcome recommendations :=
  let commonFriendRecommendations :=
    recommendByCommonFriends socialNetwork i in
  networkDistanceRecommendations ←
    recommendByNetworkDistance socialNetwork i maxDistance;
  advancedRecommendations ←
    advancedRecommendation socialNetwork i maxDistance;
  Returns (Recommendations i commonFriendRecommendations
                           networkDistanceRecommendations
                           advancedRecommendations).

(** The loop [for (int i = 1; i <= users; i++)].  The text sent to
    [std::cout] is represented by the values it is made of; the dump of the
    adjacency structure by [printNetwork] is not represented. *)
Definition demonstrateSocialNetwork (users maxDistance : Z)
    (connections : list (Z * Z)) : outcome (list recommendations) :=
  let socialNetwork := build_network users connections in
  for_each (λ printed i,
              r ← recommend socialNetwork maxDistance i;
              Returns (printed ++ [r]))
           [] (seqZ 1 users).

(** ** The range of [int] in the advanced recommendation *)






(** * Proofs *)

(** ** The model on the scenarios of the specification *)

Example total_users_empty : getTotalUsers ∅ = 0%nat.
Proof. reflexivity. Qed.

Example total_users_scenario : getTotalUsers scenario = 6%nat.
Proof. vm_compute. reflexivity. Qed.

Example friends_of_unknown : getFriends scenario 9 = ∅.
Proof. vm_compute. reflexivity. Qed.

Example distance_three_hops : getNetworkDistance scenario 1 6 = Returns 3.
Proof. vm_compute. reflexivity. Qed.

Example distance_disconnected :
  getNetworkDistance (run [AddConnection 1 2; AddConnection 3 4]) 1 4
  = Returns INT_MAX.
Proof. vm_compute. reflexivity. Qed.

Example remove_restores_chain :
  removeConnection (addConnection chain 4 1) 4 1 = chain.
Proof. vm_compute. reflexivity. Qed.

Example unknown_user_queries :
  recommendByCommonFriends scenario 9 = [] ∧
  recommendByNetworkDistance scenario 9 2 = Returns [] ∧
  advancedRecommendation scenario 9 2 = Returns [].
Proof. split_and!; vm_compute; reflexivity. Qed.

(** ** Mutations *)

Section mutations.
Implicit Types (graph : Graph) (a b c x : Z).

Lemma getFriends_subscript graph a : getFriends graph a = subscript graph a.
Proof. unfold getFriends, subscript. by destruct (graph !! a). Qed.

Lemma addUser_lookup graph a c :
  addUser graph a !! c =
  if decide (a = c) then Some (subscript graph a) else graph !! c.
Proof.
  unfold addUser, subscript. destruct (graph !! a) eqn:E.
  - case_decide; [by subst; rewrite E|done].
  - rewrite lookup_insert. by case_decide.
Qed.

Lemma getFriends_addUser graph a c :
  getFriends (addUser graph a) c = getFriends graph c.
Proof.
  unfold getFriends at 1. rewrite addUser_lookup. case_decide.
  - subst. simpl. symmetry. apply getFriends_subscript.
  - done.
Qed.

Lemma getFriends_subscript_insert graph a b c :
  getFriends (subscript_insert graph a b) c =
  if decide (a = c) then {[b]} ∪ getFriends graph c else getFriends graph c.
Proof.
  unfold subscript_insert. unfold getFriends at 1. rewrite lookup_insert.
  case_decide; [subst; by rewrite (getFriends_subscript graph c)|done].
Qed.

Lemma getFriends_subscript_erase graph a b c :
  getFriends (subscript_erase graph a b) c =
  if decide (a = c) then getFriends graph c ∖ {[b]} else getFriends graph c.
Proof.
  unfold subscript_erase. unfold getFriends at 1. rewrite lookup_insert.
  case_decide; [subst; by rewrite (getFriends_subscript graph c)|done].
Qed.

Lemma elem_of_getFriends_addConnection graph a b c x :
  x ∈ getFriends (addConnection graph a b) c ↔
  x ∈ getFriends graph c ∨ (c = a ∧ x = b) ∨ (c = b ∧ x = a).
Proof.
  unfold addConnection. cbv zeta.
  rewrite getFriends_subscript_insert, getFriends_subscript_insert.
  rewrite !getFriends_addUser.
  repeat case_decide; set_solver.
Qed.

Lemma elem_of_getFriends_removeConnection graph a b c x :
  x ∈ getFriends (removeConnection graph a b) c ↔
  x ∈ getFriends graph c ∧
  (is_Some (graph !! a) ∧ is_Some (graph !! b) →
   ¬ (c = a ∧ x = b) ∧ ¬ (c = b ∧ x = a)).
Proof.
  unfold removeConnection. case_decide as Hk; [|tauto]. cbv zeta.
  rewrite getFriends_subscript_erase, getFriends_subscript_erase.
  repeat case_decide; set_solver.
Qed.

Lemma addUser_is_Some graph a c :
  is_Some (addUser graph a !! c) ↔ a = c ∨ is_Some (graph !! c).
Proof.
  rewrite addUser_lookup. case_decide; [|naive_solver].
  split; [auto|eauto].
Qed.

Lemma subscript_insert_is_Some graph a b c :
  is_Some (subscript_insert graph a b !! c) ↔ a = c ∨ is_Some (graph !! c).
Proof.
  unfold subscript_insert. rewrite lookup_insert. case_decide; [|naive_solver].
  split; [auto|eauto].
Qed.

Lemma subscript_erase_is_Some graph a b c :
  is_Some (subscript_erase graph a b !! c) ↔ a = c ∨ is_Some (graph !! c).
Proof.
  unfold subscript_erase. rewrite lookup_insert. case_decide; [|naive_solver].
  split; [auto|eauto].
Qed.

Lemma addConnection_is_Some graph a b c :
  is_Some (addConnection graph a b !! c) ↔
  c = a ∨ c = b ∨ is_Some (graph !! c).
Proof.
  unfold addConnection. cbv zeta.
  rewrite !subscript_insert_is_Some, !addUser_is_Some. naive_solver.
Qed.

Lemma removeConnection_is_Some graph a b c :
  is_Some (removeConnection graph a b !! c) ↔ is_Some (graph !! c).
Proof.
  unfold removeConnection. case_decide as Hk; [|done]. cbv zeta.
  rewrite !subscript_erase_is_Some. naive_solver.
Qed.

Lemma getFriends_is_Some graph a x :
  x ∈ getFriends graph a → is_Some (graph !! a).
Proof. unfold getFriends. destruct (graph !! a); [eauto|set_solver]. Qed.

(** The empty graph is well formed and every mutation keeps it so. *)

Lemma mutual_empty : mutual ∅.
Proof. intros a b. unfold getFriends. rewrite !lookup_empty. set_solver. Qed.

Lemma closed_empty : closed ∅.
Proof. intros a b. unfold getFriends. rewrite lookup_empty. set_solver. Qed.

Lemma mutual_apply graph m : mutual graph → mutual (apply_mutation graph m).
Proof.
  intros Hm x y. destruct m as [u|a b|a b]; simpl.
  - rewrite !getFriends_addUser. apply Hm.
  - rewrite !elem_of_getFriends_addConnection, (Hm x y). naive_solver.
  - rewrite !elem_of_getFriends_removeConnection, (Hm x y). tauto.
Qed.

Lemma closed_apply graph m : closed graph → closed (apply_mutation graph m).
Proof.
  intros Hc x y. destruct m as [u|a b|a b]; simpl.
  - rewrite getFriends_addUser, addUser_is_Some. intros ?%Hc. auto.
  - rewrite elem_of_getFriends_addConnection, addConnection_is_Some.
    intros [?%Hc|[[-> ->]|[-> ->]]]; auto.
  - rewrite elem_of_getFriends_removeConnection, removeConnection_is_Some.
    intros [?%Hc _]. done.
Qed.

Lemma run_snoc ms m : run (ms ++ [m]) = apply_mutation (run ms) m.
Proof. unfold run. by rewrite foldl_app. Qed.

Lemma mutual_run ms : mutual (run ms).
Proof.
  induction ms as [|m ms IH] using rev_ind; [apply mutual_empty|].
  rewrite run_snoc. by apply mutual_apply.
Qed.

Lemma closed_run ms : closed (run ms).
Proof.
  induction ms as [|m ms IH] using rev_ind; [apply closed_empty|].
  rewrite run_snoc. by apply closed_apply.
Qed.

(** C2. Mutuality invariant: in the graph reached from the empty one by any
    finite sequence of [addUser], [addConnection] and [removeConnection]
    calls (whatever their arguments, known or not), [b] is a friend of [a]
    exactly when [a] is a friend of [b]. *)
Theorem connections_always_mutual (ms : list mutation) (a b : Z) :
  b ∈ getFriends (run ms) a ↔ a ∈ getFriends (run ms) b.
Proof. apply mutual_run. Qed.

(** C6. [addConnection] is idempotent: calling it a second time with the
    same arguments leaves the graph state as the first call made it. *)
Theorem addConnection_idempotent (graph : Graph) (a b : Z) :
  addConnection (addConnection graph a b) a b = addConnection graph a b.
Proof.
  apply map_eq. intros c.
  assert (∀ g : Graph, is_Some (g !! c) →
            g !! c = Some (getFriends g c)) as Hsome.
  { intros g [s Hs]. unfold getFriends. by rewrite Hs. }
  destruct (decide (is_Some (addConnection graph a b !! c))) as [Hc|Hc].
  - rewrite (Hsome _ Hc), Hsome
      by (rewrite addConnection_is_Some; auto).
    f_equal. apply set_eq. intros x.
    rewrite !elem_of_getFriends_addConnection. naive_solver.
  - pose proof Hc as Hc'. rewrite addConnection_is_Some in Hc'.
    rewrite <-eq_None_not_Some in Hc. rewrite Hc.
    apply eq_None_not_Some. rewrite addConnection_is_Some. naive_solver.
Qed.

(** C7. When either endpoint is not a user, [removeConnection] returns the
    graph it was given: no user is created and no neighbour set changes.
    The function is total, so nothing is raised.  Conversely the graph
    changes only when both endpoints are users. *)
Theorem removeConnection_unknown_noop (graph : Graph) (a b : Z) :
  (graph !! a = None ∨ graph !! b = None →
   removeConnection graph a b = graph) ∧
  (removeConnection graph a b ≠ graph →
   is_Some (graph !! a) ∧ is_Some (graph !! b)).
Proof.
  unfold removeConnection. case_decide as Hk; [|done]. split; [|done].
  destruct Hk as [[? Ha] [? Hb]]. intros [?|?]; congruence.
Qed.

Lemma removeConnection_unknown_noop_witness :
  chain !! 9 = None ∧ removeConnection chain 1 9 = chain.
Proof.
  assert (chain !! 9 = None) as H by (vm_compute; reflexivity).
  split; [exact H|].
  apply (removeConnection_unknown_noop chain 1 9). right. exact H.
Defined.

End mutations.

(** ** Recommendation by common friends *)

Lemma foldl_invariant {S A} (P : S → Prop) (f : S → A → S) (l : list A) s :
  (∀ s x, x ∈ l → P s → P (f s x)) → P s → P (foldl f s l).
Proof.
  revert s. induction l as [|x l IH]; intros s Hf Hs; [done|].
  simpl. apply IH.
  - intros s' y Hy. apply Hf. by apply list_elem_of_further.
  - apply Hf; [apply list_elem_of_here|done].
Qed.

Section common_friends.
Variables (graph : Graph) (userId : Z).
#[local] Abbreviation candidates_only := (candidates_only graph userId).

Lemma candidates_only_count potentialFriends currentFriend friendOfFriend :
  currentFriend ∈ getFriends graph userId →
  friendOfFriend ∈ getFriends graph currentFriend →
  candidates_only potentialFriends →
  candidates_only
    (count_friend_of_friend userId (getFriends graph userId)
                            potentialFriends friendOfFriend).
Proof.
  intros Hfriend Hfof Hinv.
  unfold count_friend_of_friend. case_decide as Hskip; [done|].
  intros candidate count. unfold increment. rewrite lookup_insert.
  case_decide as Heq; [|apply Hinv].
  intros [= <-]. subst candidate.
  split_and!; [tauto|tauto| |by exists currentFriend].
  destruct (potentialFriends !! friendOfFriend) as [k|] eqn:Hk; simpl; [|lia].
  apply Hinv in Hk. lia.
Qed.

Lemma candidates_only_counts :
  candidates_only (common_friend_counts graph userId).
Proof.
  unfold common_friend_counts. cbv zeta.
  apply foldl_invariant; [|by intros ??; rewrite lookup_empty].
  intros pf currentFriend Hfriend%elem_of_elements Hpf.
  apply foldl_invariant; [|done].
  intros pf' fof Hfof%elem_of_elements.
  by apply (candidates_only_count _ currentFriend).
Qed.

End common_friends.

Lemma elem_of_recommendByCommonFriends graph userId candidate count :
  (candidate, count) ∈ recommendByCommonFriends graph userId ↔
  common_friend_counts graph userId !! candidate = Some count.
Proof.
  unfold recommendByCommonFriends.
  rewrite merge_sort_Permutation. apply elem_of_map_to_list.
Qed.

(** C3. A pair returned by [recommendByCommonFriends(u)] never names [u],
    never names a direct friend of [u], and carries a strictly positive
    count; the candidate it names is a friend of at least one friend of [u],
    so a candidate without a qualifying two-hop path does not appear. *)
Theorem common_friends_exclusion (graph : Graph) (userId candidate count : Z) :
  (candidate, count) ∈ recommendByCommonFriends graph userId →
  candidate ≠ userId ∧ (candidate ∉ getFriends graph userId) ∧ 0 < count ∧
  ∃ friend, friend ∈ getFriends graph userId ∧
            candidate ∈ getFriends graph friend.
Proof.
  rewrite elem_of_recommendByCommonFriends. apply candidates_only_counts.
Qed.

Lemma common_friends_exclusion_witness :
  (4, 2) ∈ recommendByCommonFriends scenario 1 ∧
  4 ≠ 1 ∧ (4 ∉ getFriends scenario 1) ∧ 0 < 2.
Proof.
  assert ((4, 2) ∈ recommendByCommonFriends scenario 1) as H
    by (vm_compute; apply list_elem_of_here).
  split; [exact H|].
  destruct (common_friends_exclusion scenario 1 4 2 H) as (H1 & H2 & H3 & _).
  by split_and!.
Defined.

(** C4. On the graph with edges 1-2, 1-3, 2-4, 3-4, 3-5, 4-5, 4-6,
    [recommendByCommonFriends(1)] is the sequence (4, 2), (5, 1): candidate 4
    has count 2, candidate 5 has count 1, and 4 comes first. *)
Theorem common_friends_scenario :
  dom scenario = {[1; 2; 3; 4; 5; 6]} ∧
  recommendByCommonFriends scenario 1 = [(4, 2); (5, 1)].
Proof. split; vm_compute; reflexivity. Qed.

(** ** Recommendation by network distance *)

(** C1. On the graph with edges 1-2, 2-3, 3-4,
    [recommendByNetworkDistance(1, 2)] returns (3, 2) followed by (4, 3):
    user 4 is recorded at distance 3 although [maxDistance] is 2. *)
Theorem network_distance_overshoot :
  recommendByNetworkDistance chain 1 2 = Returns [(3, 2); (4, 3)].
Proof. vm_compute. reflexivity. Qed.

(** ** The traversal loops terminate *)

Lemma elem_of_all_neighbors (graph : Graph) a b :
  b ∈ getFriends graph a → b ∈ all_neighbors graph.
Proof.
  unfold getFriends, all_neighbors.
  destruct (graph !! a) as [s|] eqn:E; [|set_solver].
  intros Hb. apply elem_of_union_list. exists s. split; [|done].
  apply list_elem_of_fmap. exists (a, s). split; [done|].
  by apply elem_of_map_to_list.
Qed.

Lemma size_unvisited_insert (U V : gset Z) n :
  n ∈ U → n ∉ V → S (size (U ∖ ({[n]} ∪ V))) = size (U ∖ V).
Proof.
  intros HU HV.
  assert (U ∖ V = {[n]} ∪ (U ∖ ({[n]} ∪ V))) as ->.
  { apply set_eq. intros x. destruct (decide (x = n)); set_solver. }
  pose proof (size_union (C:=gset Z) {[n]} (U ∖ ({[n]} ∪ V))) as Hsize.
  rewrite Hsize by set_solver. by rewrite size_singleton.
Qed.

Lemma enqueue_unvisited_eq d V q n :
  enqueue_unvisited d (V, q) n =
  if decide (n ∈ V) then (V, q) else ({[n]} ∪ V, q ++ [(n, d + 1)]).
Proof. reflexivity. Qed.

Lemma pending_enqueue_unvisited U d l V q :
  (∀ x, x ∈ l → x ∈ U) →
  let st := foldl (enqueue_unvisited d) (V, q) l in
  pending U st.1 st.2 = pending U V q.
Proof.
  revert V q. induction l as [|n l IH]; intros V q HU; [done|].
  simpl. rewrite enqueue_unvisited_eq.
  assert (∀ x, x ∈ l → x ∈ U) as HU'
    by (intros; apply HU; by apply list_elem_of_further).
  case_decide as Hn.
  - by apply IH.
  - specialize (IH ({[n]} ∪ V) (q ++ [(n, d + 1)]) HU'). simpl in IH.
    rewrite IH. unfold pending. rewrite length_app. simpl.
    rewrite <-(size_unvisited_insert U V n);
      [lia|apply HU, list_elem_of_here|done].
Qed.

Lemma search_loop_pending_S fuel graph target V c d rest :
  c ≠ target →
  search_loop (S fuel) graph target V ((c, d) :: rest) =
  let st := foldl (enqueue_unvisited d) (V, rest)
                  (elements (getFriends graph c)) in
  search_loop fuel graph target st.1 st.2.
Proof. intros Hc. simpl. by rewrite decide_False. Qed.

Lemma search_loop_terminates graph target fuel V q :
  (pending (all_neighbors graph) V q < fuel)%nat →
  ∃ r, search_loop fuel graph target V q = Returns r.
Proof.
  revert V q. induction fuel as [|fuel IH]; intros V q Hfuel; [lia|].
  destruct q as [|[c d] rest]; [by eexists|].
  destruct (decide (c = target)) as [->|Hc].
  { exists d. simpl. by rewrite decide_True. }
  rewrite search_loop_pending_S by done. cbv zeta. apply IH.
  rewrite pending_enqueue_unvisited.
  - unfold pending in *. simpl in Hfuel. lia.
  - intros x Hx%elem_of_elements. by eapply elem_of_all_neighbors.
Qed.

Lemma pending_start U a : (pending U {[a]} [(a, 0%Z)] < S (S (size U)))%nat.
Proof.
  unfold pending. simpl.
  assert (size (U ∖ {[a]}) ≤ size U)%nat by (apply subseteq_size; set_solver).
  lia.
Qed.

(** ** The pairwise distance is the shortest hop count *)

(** What the [for] loop over the neighbours of the dequeued user does to
    the visited set and to the queue. *)
Lemma enqueue_unvisited_spec d l V q :
  let st := foldl (enqueue_unvisited d) (V, q) l in
  (∀ x, x ∈ st.1 ↔ x ∈ V ∨ x ∈ l) ∧
  ∃ news, st.2 = q ++ news ∧
    ∀ v d', (v, d') ∈ news ↔ d' = d + 1 ∧ v ∈ l ∧ v ∉ V.
Proof.
  revert V q. induction l as [|n l IH]; intros V q.
  { simpl. split; [set_solver|]. exists []. rewrite app_nil_r.
    split; [done|]. set_solver. }
  simpl. rewrite enqueue_unvisited_eq. case_decide as Hn.
  - destruct (IH V q) as [HV (news & Hq & Hnews)]. split.
    + intros x. rewrite HV. set_solver.
    + exists news. split; [done|]. intros v d'. rewrite Hnews. set_solver.
  - destruct (IH ({[n]} ∪ V) (q ++ [(n, d + 1)])) as [HV (news & Hq & Hnews)].
    split.
    + intros x. rewrite HV. set_solver.
    + exists ((n, d + 1) :: news). split; [by rewrite Hq, <-app_assoc|].
      intros v d'. rewrite elem_of_cons, Hnews, elem_of_cons.
      destruct (decide (v = n)) as [->|]; [|set_solver].
      split; [intros [[= ->]|?]; set_solver|]. intros (-> & _ & _). by left.
Qed.

Section shortest_path.
Variables (graph : Graph) (a target : Z).
#[local] Abbreviation search_inv := (search_inv graph a target).

Lemma two_level_tail c d rest :
  (∃ k, two_level k ((c, d) :: rest)) → two_level d rest.
Proof.
  intros [k (q1 & q2 & Hq & H1 & H2)]. destruct q1 as [|e q1].
  - simpl in Hq. subst q2. apply Forall_cons in H2 as [Hd H2]. simpl in Hd.
    exists rest, []. rewrite app_nil_r. split_and!; [done| |constructor].
    eapply Forall_impl; [exact H2|]. intros e He. simpl in He. lia.
  - simpl in Hq. injection Hq as <- ->.
    apply Forall_cons in H1 as [Hd H1]. simpl in Hd. subst k.
    by exists q1, q2.
Qed.

Lemma two_level_app d rest news :
  two_level d rest → (∀ e, e ∈ news → e.2 = d + 1) →
  two_level d (rest ++ news).
Proof.
  intros (q1 & q2 & -> & H1 & H2) Hnews. exists q1, (q2 ++ news).
  rewrite app_assoc. split_and!; [done|done|].
  apply Forall_app. split; [done|]. by apply Forall_forall.
Qed.

Lemma two_level_ge d q v d' : two_level d q → (v, d') ∈ q → d ≤ d'.
Proof.
  intros (q1 & q2 & -> & H1 & H2) [Hin|Hin]%elem_of_app.
  - rewrite Forall_forall in H1. apply H1 in Hin. simpl in Hin. lia.
  - rewrite Forall_forall in H2. apply H2 in Hin. simpl in Hin. lia.
Qed.

(** A user not yet visited is strictly farther than some queued user. *)
Lemma frontier V q w n :
  search_inv V q → hops graph a w n → w ∉ V →
  ∃ v d, (v, d) ∈ q ∧ d < Z.of_nat n.
Proof.
  intros Hinv Hh. induction Hh as [|b c n Hh IH Hc]; intros Hw.
  { destruct Hw. apply (inv_source Hinv). }
  destruct (decide (b ∈ V)) as [Hb|Hb].
  - destruct (inv_done Hinv b Hb) as [Hq|[_ Hall]].
    + apply list_elem_of_fmap in Hq as [[b' d] [-> Hq]]. simpl in *.
      destruct (inv_queue Hinv _ _ Hq) as [_ (m & -> & _ & Hmin)].
      exists b', (Z.of_nat m). split; [done|].
      specialize (Hmin n Hh). lia.
    + destruct Hw. by apply Hall.
  - destruct (IH Hb) as (v & d & Hq & Hlt). exists v, d. split; [done|lia].
Qed.

Lemma search_inv_start : search_inv {[a]} [(a, 0)].
Proof.
  split.
  - set_solver.
  - intros v d [= -> ->]%list_elem_of_singleton. split; [set_solver|].
    exists 0%nat. split; [done|]. split; [constructor|lia].
  - exists 0, [(a, 0)], []. split_and!; [done| |constructor].
    by apply Forall_singleton.
  - intros v ->%elem_of_singleton. left. simpl. set_solver.
Qed.

Lemma search_inv_step V c d rest :
  search_inv V ((c, d) :: rest) → c ≠ target →
  let st := foldl (enqueue_unvisited d) (V, rest)
                  (elements (getFriends graph c)) in
  search_inv st.1 st.2.
Proof.
  intros Hinv Hc st.
  destruct (enqueue_unvisited_spec d (elements (getFriends graph c)) V rest)
    as [HV (news & Hq & Hnews)].
  fold st in HV, Hq. rewrite Hq.
  assert (∀ v d', (v, d') ∈ news ↔
            d' = d + 1 ∧ v ∈ getFriends graph c ∧ v ∉ V) as Hnews'.
  { intros v d'. rewrite Hnews. by rewrite elem_of_elements. }
  assert (∀ x, x ∈ st.1 ↔ x ∈ V ∨ x ∈ getFriends graph c) as HV'.
  { intros x. rewrite HV. by rewrite elem_of_elements. }
  clear HV Hnews Hq.
  destruct (inv_queue Hinv c d) as [HcV (m & -> & Hhops & Hmin)];
    [apply list_elem_of_here|].
  pose proof (two_level_tail _ _ _ (inv_levels Hinv)) as Hlev.
  split.
  - apply HV'. left. apply (inv_source Hinv).
  - intros v d' [Hin|Hin]%elem_of_app.
    + destruct (inv_queue Hinv v d') as [? ?];
        [by apply list_elem_of_further|].
      split; [apply HV'; by left|done].
    + apply Hnews' in Hin as (-> & Hvc & HvV).
      split; [apply HV'; by right|].
      exists (S m). split; [lia|]. split; [by eapply hops_next|].
      intros k Hk.
      destruct (frontier _ _ _ _ Hinv Hk HvV) as (u & du & Hu & Hlt).
      assert (Z.of_nat m ≤ du); [|lia].
      apply elem_of_cons in Hu as [[= -> ->]|Hu]; [lia|].
      by eapply two_level_ge.
  - exists (Z.of_nat m). apply two_level_app; [done|].
    intros [v d'] Hin. apply Hnews' in Hin as (-> & _). done.
  - intros v Hv. apply HV' in Hv.
    destruct (decide (v ∈ V)) as [HvV|HvV].
    + destruct (inv_done Hinv v HvV) as [Hq|[Hne Hall]].
      * simpl in Hq. apply elem_of_cons in Hq as [->|Hq].
        -- right. split; [done|]. intros x Hx. apply HV'. by right.
        -- left. rewrite fmap_app. apply elem_of_app. by left.
      * right. split; [done|]. intros x Hx. apply HV'. left. by apply Hall.
    + destruct Hv as [?|Hv]; [done|]. left.
      rewrite fmap_app. apply elem_of_app. right.
      apply list_elem_of_fmap. exists (v, Z.of_nat m + 1). split; [done|].
      by apply Hnews'.
Qed.

Lemma search_inv_exhausted V n : search_inv V [] → ¬ hops graph a target n.
Proof.
  intros Hinv Hh.
  assert (∀ w k, hops graph a w k → w ∈ V) as Hall.
  { intros w k Hk. induction Hk as [|b c k Hk IH Hc].
    - apply (inv_source Hinv).
    - destruct (inv_done Hinv b IH) as [Hq|[_ Hb]]; [|by apply Hb].
      simpl in Hq. by apply elem_of_nil in Hq. }
  destruct (inv_done Hinv target (Hall _ _ Hh)) as [Hq|[? _]]; [|done].
  simpl in Hq. by apply elem_of_nil in Hq.
Qed.

Lemma search_loop_correct fuel V q :
  search_inv V q →
  (pending (all_neighbors graph) V q < fuel)%nat →
  ∃ r, search_loop fuel graph target V q = Returns r ∧
    ((∃ n, shortest graph a target n ∧ r = Z.of_nat n) ∨
     ((∀ n, ¬ hops graph a target n) ∧ r = INT_MAX)).
Proof.
  revert V q. induction fuel as [|fuel IH]; intros V q Hinv Hfuel; [lia|].
  destruct q as [|[c d] rest].
  { exists INT_MAX. split; [done|]. right. split; [|done].
    intros n. by eapply search_inv_exhausted. }
  destruct (decide (c = target)) as [->|Hc].
  { exists d. simpl. rewrite decide_True by done. split; [done|]. left.
    destruct (inv_queue Hinv target d) as [_ (n & -> & Hs)];
      [apply list_elem_of_here|].
    by exists n. }
  rewrite search_loop_pending_S by done. cbv zeta. apply IH.
  - by apply search_inv_step.
  - rewrite pending_enqueue_unvisited.
    + unfold pending in *. simpl in Hfuel. lia.
    + intros x Hx%elem_of_elements. by eapply elem_of_all_neighbors.
Qed.

End shortest_path.

Lemma hops_from_unknown (graph : Graph) a w n :
  graph !! a = None → hops graph a w n → w = a.
Proof.
  intros Ha Hh. induction Hh as [|b c n Hh IH Hc]; [done|]. subst b.
  unfold getFriends in Hc. rewrite Ha in Hc. set_solver.
Qed.

Lemma no_hops_to_unknown (graph : Graph) a b n :
  closed graph → a ≠ b → graph !! a = None ∨ graph !! b = None →
  ¬ hops graph a b n.
Proof.
  intros Hclosed Hne [Ha|Hb] Hh.
  - by apply hops_from_unknown in Hh.
  - inversion Hh as [|c ? m Hc Hbc]; subst; [done|].
    apply Hclosed in Hbc as [? Hbc]. congruence.
Qed.

(** The search started by [getNetworkDistance] meets its postcondition. *)
Lemma getNetworkDistance_post (graph : Graph) (a b : Z) :
  ∃ r, getNetworkDistance graph a b = Returns r ∧
    ((∃ n, shortest graph a b n ∧ r = Z.of_nat n) ∨
     ((∀ n, ¬ hops graph a b n) ∧ r = INT_MAX)).
Proof.
  apply search_loop_correct; [apply search_inv_start|apply pending_start].
Qed.

(** C5, as amended. [getNetworkDistance(a, b)] always returns.  When [b]
    can be reached from [a] it returns the shortest-path hop count, which
    is 0 when [a = b], whether or not the identifier is a user.  When no
    path exists it returns the maximum [int]; in a graph whose listed
    neighbours are all users, that is the case whenever [a] and [b] differ
    and one of them is unknown. *)
Theorem getNetworkDistance_shortest (graph : Graph) (a b : Z) :
  ∃ r, getNetworkDistance graph a b = Returns r ∧
    ((∃ n, shortest graph a b n ∧ r = Z.of_nat n) ∨
     ((∀ n, ¬ hops graph a b n) ∧ r = INT_MAX)) ∧
    (closed graph → a ≠ b → graph !! a = None ∨ graph !! b = None →
     r = INT_MAX).
Proof.
  destruct (getNetworkDistance_post graph a b) as (r & Hr & Hpost).
  exists r. split_and!; [done|done|].
  intros Hclosed Hne Hunknown.
  destruct Hpost as [(n & [Hh _] & _)|[_ ->]]; [|done].
  by eapply no_hops_to_unknown in Hh.
Qed.

Lemma getNetworkDistance_shortest_witness :
  closed chain ∧ chain !! 9 = None ∧
  getNetworkDistance chain 1 9 = Returns INT_MAX.
Proof.
  assert (chain !! 9 = None) as H by (vm_compute; reflexivity).
  split_and!; [apply closed_run|exact H|].
  destruct (getNetworkDistance_shortest chain 1 9) as (r & Hr & _ & Hunknown).
  rewrite Hr. f_equal. apply Hunknown; [apply closed_run|lia|by right].
Defined.

(** The identifier 7 is unknown to the empty graph, and yet
    [getNetworkDistance(7, 7)] is 0, not the maximum [int]. *)
Lemma getNetworkDistance_unknown_counterexample :
  (∅ : Graph) !! 7 = None ∧
  getNetworkDistance ∅ 7 7 = Returns 0 ∧
  getNetworkDistance ∅ 7 7 ≠ Returns INT_MAX.
Proof. split_and!; [reflexivity|reflexivity|discriminate]. Qed.

(** C10. [getNetworkDistance(u, u)] is 0 for every identifier [u], known
    to the graph or not: the source is compared with the target as soon as
    it is dequeued. *)
Theorem getNetworkDistance_self (graph : Graph) (u : Z) :
  getNetworkDistance graph u u = Returns 0.
Proof.
  unfold getNetworkDistance, bfs_fuel. simpl. by rewrite decide_True.
Qed.

(** The result does not depend on the fuel, once there is enough of it. *)
Lemma search_loop_fuel_mono graph target fuel fuel' V q r :
  (fuel ≤ fuel')%nat →
  search_loop fuel graph target V q = Returns r →
  search_loop fuel' graph target V q = Returns r.
Proof.
  revert fuel' V q. induction fuel as [|fuel IH]; intros fuel' V q Hle; [done|].
  destruct fuel' as [|fuel']; [lia|]. simpl.
  destruct q as [|[c d] rest]; [done|]. case_decide; [done|].
  apply IH. lia.
Qed.

(** A friend of a friend who is neither the user nor a direct friend is at
    distance 2, so [networkDistance + 1] is 3 wherever
    [advancedRecommendation] computes it. *)
Lemma friend_of_friend_distance (graph : Graph) u f g :
  f ∈ getFriends graph u → g ∈ getFriends graph f →
  g ≠ u → g ∉ getFriends graph u →
  getNetworkDistance graph u g = Returns 2.
Proof.
  intros Hf Hg Hne Hnot.
  assert (hops graph u g 2) as Htwo.
  { eapply hops_next; [|exact Hg]. eapply hops_next; [|exact Hf]. constructor. }
  destruct (getNetworkDistance_post graph u g) as (r & Hr & Hpost).
  rewrite Hr. f_equal.
  destruct Hpost as [(n & [Hn Hmin] & ->)|[Hnone _]];
    [|by destruct (Hnone 2%nat)].
  specialize (Hmin _ Htwo).
  destruct n as [|[|n]]; [| |lia].
  - by inversion Hn.
  - inversion Hn as [|b ? ? Hb Hbg]; subst. inversion Hb; subst. done.
Qed.

(** ** Recommendation by network distance: totality *)

Lemma bind_Returns {A B} (a : A) (k : A → outcome B) :
  (Returns a ≫= k) = k a.
Proof. reflexivity. Qed.

Lemma for_each_cons {S A} (body : S → A → outcome S) s x l :
  for_each body s (x :: l) = body s x ≫= λ s', for_each body s' l.
Proof. reflexivity. Qed.

(** Case analysis on the computation bound first in a goal of the form
    [(m ≫= k) = Returns r → _]: a failure of [m] contradicts the
    hypothesis. *)
Ltac bind_returns x H :=
  match goal with
  | |- context [mbind _ ?m] =>
      destruct m as [x|] eqn:H; [rewrite bind_Returns|done]
  end.

Lemma for_each_invariant {S A} (P : S → Prop) (body : S → A → outcome S)
    l s s' :
  (∀ s x s', P s → body s x = Returns s' → P s') →
  P s → for_each body s l = Returns s' → P s'.
Proof.
  intros Hbody. revert s. induction l as [|x l IH]; intros s Hs.
  { by intros [= <-]. }
  rewrite for_each_cons. bind_returns s1 Hx. apply IH. by eapply Hbody.
Qed.

Section network_distance.
Variables (graph : Graph) (userId maxDistance : Z).
#[local] Abbreviation recorded_within := (recorded_within maxDistance).

(** With [userId] a key of the graph, [graph.at(userId)] does not throw and
    one call of the loop body leaves [pending] as it was. *)
Lemma discover_pending U d st n :
  is_Some (graph !! userId) → n ∈ U →
  ∃ st', discover graph userId d st n = Returns st' ∧
    pending U (visited st') (queue st') = pending U (visited st) (queue st).
Proof.
  intros [direct Hdirect] HU. unfold discover. rewrite Hdirect.
  assert (n ∉ visited st →
          pending U ({[n]} ∪ visited st) (queue st ++ [(n, d + 1)]) =
          pending U (visited st) (queue st)) as Hpush.
  { intros Hn. unfold pending. rewrite length_app. simpl.
    rewrite <-(size_unvisited_insert U (visited st) n) by done. lia. }
  repeat case_decide; eexists; (split; [reflexivity|]); simpl; auto.
Qed.

Lemma for_each_discover_pending U d l st :
  is_Some (graph !! userId) → (∀ x, x ∈ l → x ∈ U) →
  ∃ st', for_each (discover graph userId d) st l = Returns st' ∧
    pending U (visited st') (queue st') = pending U (visited st) (queue st).
Proof.
  intros Hknown. revert st. induction l as [|n l IH]; intros st HU.
  { by exists st. }
  destruct (discover_pending U d st n Hknown) as (st1 & Hst1 & Hp1).
  { apply HU, list_elem_of_here. }
  destruct (IH st1) as (st2 & Hst2 & Hp2).
  { intros x Hx. by apply HU, list_elem_of_further. }
  exists st2. rewrite for_each_cons, Hst1, bind_Returns.
  split; [done|congruence].
Qed.

Lemma distance_loop_returns fuel st :
  is_Some (graph !! userId) →
  (pending (all_neighbors graph) (visited st) (queue st) < fuel)%nat →
  ∃ r, distance_loop fuel graph userId maxDistance st = Returns r.
Proof.
  intros Hknown. revert st.
  induction fuel as [|fuel IH]; intros st Hfuel; [lia|].
  simpl. destruct (queue st) as [|[c d] rest] eqn:Hq; [by eexists|].
  case_decide; [by eexists|].
  destruct (for_each_discover_pending (all_neighbors graph) d
              (elements (getFriends graph c))
              (Traversal (distances st) (visited st) rest) Hknown)
    as (st' & -> & Hp).
  { intros x Hx%elem_of_elements. by eapply elem_of_all_neighbors. }
  rewrite bind_Returns. apply IH.
  rewrite Hp. unfold pending in *. simpl in *. lia.
Qed.

Lemma recommendByNetworkDistance_unknown :
  graph !! userId = None →
  recommendByNetworkDistance graph userId maxDistance = Returns [].
Proof.
  intros Hunknown. unfold recommendByNetworkDistance, bfs_fuel. simpl.
  case_decide; [done|].
  unfold getFriends. rewrite Hunknown, elements_empty. done.
Qed.

Lemma distance_loop_fuel_mono fuel fuel' st r :
  (fuel ≤ fuel')%nat →
  distance_loop fuel graph userId maxDistance st = Returns r →
  distance_loop fuel' graph userId maxDistance st = Returns r.
Proof.
  revert fuel' st. induction fuel as [|fuel IH]; intros fuel' st Hle; [done|].
  destruct fuel' as [|fuel']; [lia|]. simpl.
  destruct (queue st) as [|[c d] rest]; [done|]. case_decide; [done|].
  destruct (for_each _ _ _) as [st'|e]; [|done].
  rewrite !bind_Returns. apply IH. lia.
Qed.

Lemma discover_recorded_within d st n st' :
  d ≤ maxDistance → recorded_within (distances st) →
  discover graph userId d st n = Returns st' →
  recorded_within (distances st').
Proof.
  intros Hd Hinv. unfold discover.
  destruct (graph !! userId) as [direct|];
    repeat case_decide; intros [= <-]; simpl; try done.
  intros candidate d'. rewrite lookup_insert.
  case_decide; [intros [= <-]; lia|apply Hinv].
Qed.

Lemma distance_loop_recorded_within fuel st r :
  recorded_within (distances st) →
  distance_loop fuel graph userId maxDistance st = Returns r →
  recorded_within r.
Proof.
  revert st. induction fuel as [|fuel IH]; intros st Hinv; [done|].
  simpl. destruct (queue st) as [|[c d] rest]; [by intros [= <-]|].
  case_decide as Hd; [by intros [= <-]|].
  bind_returns st' Hfor. apply IH. revert Hfor.
  apply (for_each_invariant (λ s, recorded_within (distances s)));
    [|exact Hinv].
  intros s x s' Hs. apply discover_recorded_within; [lia|done].
Qed.

End network_distance.

(** What the cut-off of the traversal does guarantee. *)
Lemma recommendByNetworkDistance_bound graph userId maxDistance l c d :
  recommendByNetworkDistance graph userId maxDistance = Returns l →
  (c, d) ∈ l → d ≤ maxDistance + 1.
Proof.
  unfold recommendByNetworkDistance.
  bind_returns r Hloop. intros [= <-].
  rewrite merge_sort_Permutation, elem_of_map_to_list.
  eapply (distance_loop_recorded_within graph userId maxDistance);
    [|exact Hloop].
  intros ??. simpl. by rewrite lookup_empty.
Qed.

(** C9. [recommendByNetworkDistance] returns for every graph, user and
    bound: the loop finishes and [graph.at(userId)] never throws.  When
    [userId] is not a user the result is the empty sequence. *)
Theorem recommendByNetworkDistance_total (graph : Graph)
    (userId maxDistance : Z) :
  (∃ l, recommendByNetworkDistance graph userId maxDistance = Returns l) ∧
  (graph !! userId = None →
   recommendByNetworkDistance graph userId maxDistance = Returns []).
Proof.
  split; [|apply recommendByNetworkDistance_unknown].
  destruct (graph !! userId) as [direct|] eqn:Hu.
  - destruct (distance_loop_returns graph userId maxDistance (bfs_fuel graph)
                (Traversal ∅ {[userId]} [(userId, 0)])) as [r Hr].
    { by rewrite Hu. }
    { apply pending_start. }
    unfold recommendByNetworkDistance. rewrite Hr, bind_Returns. by eexists.
  - exists []. by apply recommendByNetworkDistance_unknown.
Qed.

Lemma recommendByNetworkDistance_total_witness :
  chain !! 9 = None ∧ recommendByNetworkDistance chain 9 2 = Returns [].
Proof.
  assert (chain !! 9 = None) as H by (vm_compute; reflexivity).
  split; [exact H|].
  exact (proj2 (recommendByNetworkDistance_total chain 9 2) H).
Defined.

(** ** Scores of the advanced recommendation *)

Section double_sign.
Import Double.

Lemma binary_round_aux_sign_clear mx ex lx :
  sign_clear (binary_round_aux prec emax false mx ex lx).
Proof.
  unfold binary_round_aux.
  destruct (shr_fexp prec emax mx ex lx) as [mrs' e'].
  destruct (shr_fexp prec emax _ e' loc_Exact) as [mrs'' e''].
  destruct (shr_m mrs''); [done| |done].
  by destruct (e'' <=? emax - prec)%Z.
Qed.

Lemma binary_normalize_sign_clear m e :
  0 ≤ m → sign_clear (binary_normalize prec emax m e false).
Proof.
  intros Hm. destruct m as [|m|m]; [done| |lia].
  unfold binary_normalize, binary_round.
  destruct (shl_align m e _) as [mz ez]. apply binary_round_aux_sign_clear.
Qed.

Lemma of_int_sign_clear z : 0 ≤ z → sign_clear (of_int z).
Proof. apply binary_normalize_sign_clear. Qed.

Lemma add_sign_clear x y :
  sign_clear x → sign_clear y → sign_clear (add x y).
Proof.
  destruct x as [sx|sx| |sx mx ex], y as [sy|sy| |sy my ey];
    simpl; intros Hx Hy; subst; try done.
  unfold add, SFadd. apply binary_normalize_sign_clear.
  unfold cond_Zopp. lia.
Qed.

Lemma div_one_sign_clear y : sign_clear y → sign_clear (div one y).
Proof.
  change one with (S754_finite false 4503599627370496 (-52)).
  destruct y as [sy|sy| |sy my ey]; simpl; intros Hy; subst; try done.
  unfold div, SFdiv.
  destruct (SFdiv_core_binary _ _ _ _ _ _) as [[mz ez] lz].
  apply binary_round_aux_sign_clear.
Qed.

Lemma truncate_nonneg m e : 0 ≤ truncate false m e.
Proof.
  unfold truncate. case_decide.
  - apply Z.mul_nonneg_nonneg; [lia|]. by apply Z.pow_nonneg.
  - apply Z.div_pos; [lia|]. apply Z.pow_pos_nonneg; lia.
Qed.

Lemma to_int_nonneg x z : sign_clear x → to_int x = Returns z → 0 ≤ z.
Proof.
  destruct x as [s|s| |s m e]; simpl; try done.
  - by intros _ [= <-].
  - intros ->. case_decide; [|done]. intros [= <-]. apply truncate_nonneg.
Qed.

End double_sign.

Lemma getNetworkDistance_returns graph a b :
  ∃ r, getNetworkDistance graph a b = Returns r ∧ 0 ≤ r.
Proof.
  destruct (getNetworkDistance_post graph a b) as (r & Hr & Hpost).
  exists r. split; [done|].
  destruct Hpost as [(n & _ & ->)|[_ ->]]; [lia|done].
Qed.

Lemma count_common_nonneg graph userFriends friendOfFriend :
  0 ≤ count_common graph userFriends friendOfFriend.
Proof.
  unfold count_common. apply (foldl_invariant (λ c, 0 ≤ c)); [|done].
  intros c x _ Hc. case_decide; lia.
Qed.

Lemma for_each_returns {S A} (body : S → A → outcome S) l s :
  (∀ s x, ∃ s', body s x = Returns s') →
  ∃ s', for_each body s l = Returns s'.
Proof.
  intros Hbody. revert s. induction l as [|x l IH]; intros s; [by eexists|].
  destruct (Hbody s x) as [s1 Hs1].
  rewrite for_each_cons, Hs1, bind_Returns. apply IH.
Qed.

Section advanced.
Variables (graph : Graph) (userId : Z).

Lemma score_friend_of_friend_sign_clear userFriends scores fof scores' :
  scores_sign_clear scores →
  score_friend_of_friend graph userId userFriends scores fof
    = Returns scores' →
  scores_sign_clear scores'.
Proof.
  intros Hinv. unfold score_friend_of_friend.
  case_decide; [by intros [= <-]|].
  destruct (getNetworkDistance_returns graph userId fof) as (r & -> & Hr).
  rewrite bind_Returns. intros [= <-].
  intros candidate score. unfold accumulate. rewrite lookup_insert.
  case_decide; [|apply Hinv]. intros [= <-].
  apply add_sign_clear.
  - destruct (scores !! fof) as [old|] eqn:Hold; simpl; [|done].
    by eapply Hinv.
  - apply add_sign_clear.
    + apply of_int_sign_clear.
      pose proof (count_common_nonneg graph userFriends fof). lia.
    + apply div_one_sign_clear, of_int_sign_clear. lia.
Qed.

Lemma score_friend_of_friend_returns userFriends scores fof :
  ∃ scores',
    score_friend_of_friend graph userId userFriends scores fof
      = Returns scores'.
Proof.
  unfold score_friend_of_friend. case_decide; [by eexists|].
  destruct (getNetworkDistance_returns graph userId fof) as (r & -> & _).
  rewrite bind_Returns. by eexists.
Qed.

Lemma recommendation_scores_returns :
  ∃ scores, recommendation_scores graph userId = Returns scores.
Proof.
  unfold recommendation_scores. cbv zeta. apply for_each_returns.
  intros scores currentFriend. apply for_each_returns.
  intros scores' fof. apply score_friend_of_friend_returns.
Qed.

Lemma recommendation_scores_sign_clear scores :
  recommendation_scores graph userId = Returns scores →
  scores_sign_clear scores.
Proof.
  unfold recommendation_scores. cbv zeta.
  apply (for_each_invariant scores_sign_clear).
  - intros s currentFriend s' Hs.
    apply (for_each_invariant scores_sign_clear); [|done].
    intros s1 fof s2. apply score_friend_of_friend_sign_clear.
  - intros ??. by rewrite lookup_empty.
Qed.

End advanced.

Lemma elem_of_truncate_scores l rs k z :
  truncate_scores l = Returns rs → (k, z) ∈ rs →
  ∃ x, (k, x) ∈ l ∧ Double.to_int x = Returns z.
Proof.
  revert rs. induction l as [|[k' x] l IH]; intros rs; simpl.
  { intros [= <-] Hin. by apply elem_of_nil in Hin. }
  unfold truncate_score. simpl.
  destruct (Double.to_int x) as [z'|] eqn:Hx; [|done].
  rewrite !bind_Returns.
  destruct (truncate_scores l) as [rs'|] eqn:Hl; [|done].
  rewrite bind_Returns. intros [= <-] [[= -> ->]|Hin]%elem_of_cons.
  - exists x. split; [apply list_elem_of_here|done].
  - destruct (IH rs' eq_refl Hin) as (y & Hy & Hz).
    exists y. split; [by apply list_elem_of_further|done].
Qed.

Lemma truncate_scores_failure l e :
  truncate_scores l = Fails e → e = bad_cast.
Proof.
  induction l as [|[k x] l IH]; simpl; [done|].
  unfold truncate_score. simpl.
  destruct (Double.to_int x) as [z|e'] eqn:Hx.
  - rewrite !bind_Returns.
    destruct (truncate_scores l) as [rs|e'']; [done|].
    intros [= <-]. by apply IH.
  - intros [= <-]. destruct x as [?|?| |? ? ?]; simpl in Hx;
      try case_decide; congruence.
Qed.

Lemma advancedRecommendation_failure graph userId maxDistance e :
  advancedRecommendation graph userId maxDistance = Fails e → e = bad_cast.
Proof.
  unfold advancedRecommendation.
  destruct (recommendation_scores_returns graph userId) as [scores ->].
  rewrite bind_Returns.
  destruct (truncate_scores _) as [rs|e'] eqn:Hrs; [done|].
  intros [= <-]. by eapply truncate_scores_failure.
Qed.

Lemma advancedRecommendation_nonneg graph userId maxDistance l c s :
  advancedRecommendation graph userId maxDistance = Returns l →
  (c, s) ∈ l → 0 ≤ s.
Proof.
  unfold advancedRecommendation.
  bind_returns scores Hs. bind_returns rs Hrs. intros [= <-].
  rewrite merge_sort_Permutation. intros Hin.
  destruct (elem_of_truncate_scores _ _ _ _ Hrs Hin) as (x & Hx & Hz).
  apply elem_of_map_to_list in Hx.
  eapply to_int_nonneg; [|exact Hz].
  by eapply recommendation_scores_sign_clear.
Qed.

(** * Further properties of the engine *)

(** ** Mutations: exact effect, composition, round trips *)

Section mutation_algebra.
Implicit Types (graph : Graph) (a b c x : Z).

(** Two graphs with the same users and the same neighbour sets are equal. *)
Lemma graph_eq graph1 graph2 :
  (∀ c, is_Some (graph1 !! c) ↔ is_Some (graph2 !! c)) →
  (∀ c, getFriends graph1 c = getFriends graph2 c) →
  graph1 = graph2.
Proof.
  intros Hdom Hfriends. apply map_eq. intros c.
  specialize (Hdom c). specialize (Hfriends c). unfold getFriends in Hfriends.
  destruct (graph1 !! c) as [s1|] eqn:E1, (graph2 !! c) as [s2|] eqn:E2;
    [by subst| | |done].
  - destruct Hdom as [Hdom _]. by destruct Hdom.
  - destruct Hdom as [_ Hdom]. by destruct Hdom.
Qed.

Lemma getFriends_addConnection graph a b c :
  getFriends (addConnection graph a b) c =
  getFriends graph c ∪ (if decide (c = a) then {[b]} else ∅)
                     ∪ (if decide (c = b) then {[a]} else ∅).
Proof.
  apply set_eq. intros x. rewrite elem_of_getFriends_addConnection.
  repeat case_decide; set_solver.
Qed.

Lemma getFriends_removeConnection graph a b c :
  is_Some (graph !! a) → is_Some (graph !! b) →
  getFriends (removeConnection graph a b) c =
  (getFriends graph c ∖ (if decide (c = a) then {[b]} else ∅))
                      ∖ (if decide (c = b) then {[a]} else ∅).
Proof.
  intros Ha Hb. apply set_eq. intros x.
  rewrite elem_of_getFriends_removeConnection.
  repeat case_decide; set_solver.
Qed.

Lemma dom_addUser graph a : dom (addUser graph a) = {[a]} ∪ dom graph.
Proof.
  apply set_eq. intros c.
  rewrite elem_of_union, elem_of_singleton, !elem_of_dom, addUser_is_Some.
  naive_solver.
Qed.

Lemma dom_addConnection graph a b :
  dom (addConnection graph a b) = {[a; b]} ∪ dom graph.
Proof.
  apply set_eq. intros c.
  rewrite !elem_of_union, !elem_of_singleton, !elem_of_dom,
    addConnection_is_Some. naive_solver.
Qed.

Lemma dom_removeConnection graph a b :
  dom (removeConnection graph a b) = dom graph.
Proof.
  apply set_eq. intros c. by rewrite !elem_of_dom, removeConnection_is_Some.
Qed.

(** [addUser] registers the identifier and touches no neighbour set; on an
    identifier that is already a user it changes nothing, so the friends
    of that user survive. *)
Theorem addUser_effect graph a :
  dom (addUser graph a) = {[a]} ∪ dom graph ∧
  (∀ c, getFriends (addUser graph a) c = getFriends graph c) ∧
  (is_Some (graph !! a) → addUser graph a = graph).
Proof.
  split_and!.
  - apply dom_addUser.
  - intros c. apply getFriends_addUser.
  - intros [s Hs]. unfold addUser. by rewrite Hs.
Qed.

Lemma addUser_effect_witness :
  is_Some (chain !! 2) ∧ addUser chain 2 = chain.
Proof.
  assert (is_Some (chain !! 2)) as H by (vm_compute; eauto).
  split; [exact H|]. exact (proj2 (proj2 (addUser_effect chain 2)) H).
Defined.

(** [addConnection(a, b)] makes both identifiers users, adds [b] to the
    friends of [a] and [a] to the friends of [b], and changes no other
    neighbour set.  With [a = b] the user becomes its own friend: the code
    has no guard against self-loops. *)
Theorem addConnection_effect graph a b :
  dom (addConnection graph a b) = {[a; b]} ∪ dom graph ∧
  getFriends (addConnection graph a b) a = {[b]} ∪ getFriends graph a ∧
  getFriends (addConnection graph a b) b = {[a]} ∪ getFriends graph b ∧
  (∀ c, c ≠ a → c ≠ b →
        getFriends (addConnection graph a b) c = getFriends graph c).
Proof.
  split_and!.
  - apply dom_addConnection.
  - rewrite getFriends_addConnection. repeat case_decide; set_solver.
  - rewrite getFriends_addConnection. repeat case_decide; set_solver.
  - intros c Ha Hb. rewrite getFriends_addConnection.
    repeat case_decide; set_solver.
Qed.

Lemma addConnection_effect_witness :
  getFriends (addConnection chain 1 4) 2 = getFriends chain 2.
Proof.
  apply (addConnection_effect chain 1 4); lia.
Defined.

(** The two arguments of [addConnection] play the same role. *)
Theorem addConnection_symmetric graph a b :
  addConnection graph a b = addConnection graph b a.
Proof.
  apply graph_eq; intros c.
  - rewrite !addConnection_is_Some. naive_solver.
  - rewrite !getFriends_addConnection. repeat case_decide; set_solver.
Qed.

(** Connections can be added in any order. *)
Theorem addConnection_commute graph a b c d :
  addConnection (addConnection graph a b) c d =
  addConnection (addConnection graph c d) a b.
Proof.
  apply graph_eq; intros e.
  - rewrite !addConnection_is_Some. naive_solver.
  - rewrite !getFriends_addConnection. repeat case_decide; set_solver.
Qed.

(** [removeConnection] never removes a user.  When both endpoints are users
    it takes [b] out of the friends of [a] and [a] out of the friends of
    [b], and changes no other neighbour set. *)
Theorem removeConnection_effect graph a b :
  dom (removeConnection graph a b) = dom graph ∧
  (is_Some (graph !! a) → is_Some (graph !! b) →
   getFriends (removeConnection graph a b) a = getFriends graph a ∖ {[b]} ∧
   getFriends (removeConnection graph a b) b = getFriends graph b ∖ {[a]} ∧
   ∀ c, c ≠ a → c ≠ b →
        getFriends (removeConnection graph a b) c = getFriends graph c).
Proof.
  split.
  - apply dom_removeConnection.
  - intros Ha Hb. split_and!.
    + rewrite getFriends_removeConnection by done.
      repeat case_decide; set_solver.
    + rewrite getFriends_removeConnection by done.
      repeat case_decide; set_solver.
    + intros c ??. rewrite getFriends_removeConnection by done.
      repeat case_decide; set_solver.
Qed.

Lemma removeConnection_effect_witness :
  getFriends (removeConnection chain 2 3) 2 = getFriends chain 2 ∖ {[3]}.
Proof.
  apply (removeConnection_effect chain 2 3); vm_compute; eauto.
Defined.

(** The two arguments of [removeConnection] play the same role, and removing
    a connection a second time changes nothing. *)
Theorem removeConnection_symmetric_idempotent graph a b :
  removeConnection graph a b = removeConnection graph b a ∧
  removeConnection (removeConnection graph a b) a b
  = removeConnection graph a b.
Proof.
  split; apply graph_eq; intros c;
    rewrite ?removeConnection_is_Some; try done;
    apply set_eq; intros x;
    rewrite !elem_of_getFriends_removeConnection,
      ?removeConnection_is_Some; tauto.
Qed.

(** Removing a connection just added between two users that were not
    connected gives the graph back. *)
Theorem removeConnection_addConnection graph a b :
  is_Some (graph !! a) → is_Some (graph !! b) →
  b ∉ getFriends graph a → a ∉ getFriends graph b →
  removeConnection (addConnection graph a b) a b = graph.
Proof.
  intros Ha Hb Hab Hba. apply graph_eq; intros c.
  - rewrite removeConnection_is_Some, addConnection_is_Some. naive_solver.
  - apply set_eq. intros x.
    rewrite elem_of_getFriends_removeConnection,
      elem_of_getFriends_addConnection, !addConnection_is_Some.
    naive_solver.
Qed.

Lemma removeConnection_addConnection_witness :
  removeConnection (addConnection chain 1 4) 1 4 = chain.
Proof.
  apply removeConnection_addConnection;
    [vm_compute; eauto|vm_compute; eauto|vm_compute; set_solver..].
Defined.

(** Adding back a connection just removed gives the graph back, when the
    two users listed each other. *)
Theorem addConnection_removeConnection graph a b :
  b ∈ getFriends graph a → a ∈ getFriends graph b →
  addConnection (removeConnection graph a b) a b = graph.
Proof.
  intros Hab Hba.
  pose proof (getFriends_is_Some _ _ _ Hab) as Ha.
  pose proof (getFriends_is_Some _ _ _ Hba) as Hb.
  apply graph_eq; intros c.
  - rewrite addConnection_is_Some, removeConnection_is_Some. naive_solver.
  - apply set_eq. intros x.
    rewrite elem_of_getFriends_addConnection,
      elem_of_getFriends_removeConnection.
    destruct (decide (c = a)), (decide (c = b)), (decide (x = a)),
      (decide (x = b)); naive_solver.
Qed.

Lemma addConnection_removeConnection_witness :
  addConnection (removeConnection chain 2 3) 2 3 = chain.
Proof.
  apply addConnection_removeConnection; vm_compute; set_solver.
Defined.

(** No mutation removes a user: the set of users only grows, by at most the
    two endpoints of a new connection. *)
Theorem users_never_removed graph (m : mutation) :
  dom graph ⊆ dom (apply_mutation graph m) ∧
  (getTotalUsers graph ≤ getTotalUsers (apply_mutation graph m)
                       ≤ getTotalUsers graph + 2)%nat.
Proof.
  assert (∃ extra : gset Z,
            dom (apply_mutation graph m) = extra ∪ dom graph ∧
            (size extra ≤ 2)%nat) as (extra & Hdom & Hsize).
  { destruct m as [u|a b|a b]; simpl.
    - exists {[u]}. split; [apply dom_addUser|]. rewrite size_singleton. lia.
    - exists {[a; b]}. split; [apply dom_addConnection|].
      pose proof (size_union_alt (C:=gset Z) {[a]} {[b]}) as Hu.
      assert (size ({[b]} ∖ {[a]} : gset Z) ≤ 1)%nat.
      { rewrite <-(size_singleton (C:=gset Z) b).
        apply subseteq_size. set_solver. }
      rewrite Hu, size_singleton. lia.
    - exists ∅. split; [|rewrite size_empty; lia].
      rewrite dom_removeConnection. set_solver. }
  unfold getTotalUsers.
  rewrite <-!(size_dom (D:=gset Z)), Hdom. split; [set_solver|].
  pose proof (size_union_alt (C:=gset Z) (dom graph) extra) as Hu.
  assert (size (extra ∖ dom graph) ≤ size extra)%nat
    by (apply subseteq_size; set_solver).
  assert (extra ∪ dom graph = dom graph ∪ extra) as -> by set_solver.
  lia.
Qed.

(** In a graph built from the empty one, whoever lists a friend is a user
    and so is the friend. *)
Theorem neighbors_are_users (ms : list mutation) a b :
  b ∈ getFriends (run ms) a →
  is_Some (run ms !! a) ∧ is_Some (run ms !! b).
Proof.
  intros Hb. split; [by eapply getFriends_is_Some|].
  by eapply closed_run.
Qed.

Lemma neighbors_are_users_witness :
  is_Some (chain !! 2) ∧ is_Some (chain !! 3).
Proof.
  apply (neighbors_are_users
           [AddConnection 1 2; AddConnection 2 3; AddConnection 3 4] 2 3).
  vm_compute. set_solver.
Defined.

End mutation_algebra.

(** ** The result sequences are sorted and name each candidate once *)

Section sorted_by_comparator.
Context {A : Type} (R T : relation A) `{!∀ x y, Decision (R x y)}.
Hypothesis R_T : ∀ x y, R x y → T x y.
Hypothesis not_R_T : ∀ x y, ¬ R x y → T y x.

Lemma HdRel_merge x l1 l2 :
  HdRel T x l1 → HdRel T x l2 → HdRel T x (list_merge R l1 l2).
Proof.
  destruct 1 as [|x1 l1 IH1], 1 as [|x2 l2 IH2];
    rewrite ?list_merge_cons; simpl; repeat case_decide; auto.
Qed.

Lemma Sorted_merge l1 l2 :
  Sorted T l1 → Sorted T l2 → Sorted T (list_merge R l1 l2).
Proof.
  intros Hl1. revert l2. induction Hl1 as [|x1 l1 Hl1 IH1 Hd1];
    induction 1 as [|x2 l2 Hl2 IH2 Hd2]; rewrite ?list_merge_cons; simpl;
    [constructor|by constructor|by constructor|].
  case_decide as HR.
  - constructor; [apply IH1; by constructor|].
    apply HdRel_merge; [done|]. constructor. by apply R_T.
  - constructor; [done|].
    apply HdRel_merge; [|done]. constructor. by apply not_R_T.
Qed.

#[local] Abbreviation stack_sorted :=
  (Forall (λ o : option (list A), from_option (Sorted T) True o)).

Lemma Sorted_merge_to_stack st l :
  stack_sorted st → Sorted T l → stack_sorted (merge_list_to_stack R st l).
Proof.
  intros Hst. revert l. induction Hst as [|[l'|] st Hl' Hst IH]; intros l Hl;
    simpl; repeat constructor; auto.
  apply IH. by apply Sorted_merge.
Qed.

Lemma Sorted_merge_whole_stack st :
  stack_sorted st → Sorted T (merge_stack R st).
Proof.
  induction 1 as [|[l|] st Hl Hst IH]; simpl; [constructor| |done].
  by apply Sorted_merge.
Qed.

Lemma comparator_sort_Sorted l : Sorted T (merge_sort R l).
Proof.
  unfold merge_sort. assert (stack_sorted []) as Hst by constructor.
  revert Hst. generalize (@nil (option (list A))).
  induction l as [|x l IH]; intros st Hst; simpl.
  - by apply Sorted_merge_whole_stack.
  - apply IH, Sorted_merge_to_stack; [done|]. repeat constructor.
Qed.

End sorted_by_comparator.

#[local] Instance not_below_transitive : Transitive not_below.
Proof. unfold not_below. intros a b c ??. lia. Qed.
#[local] Instance not_above_transitive : Transitive not_above.
Proof. unfold not_above. intros a b c ??. lia. Qed.

Lemma sort_descending l :
  StronglySorted not_below (merge_sort second_gt l) ∧
  (merge_sort second_gt l).*1 ≡ₚ l.*1.
Proof.
  split; [|by rewrite merge_sort_Permutation].
  apply Sorted_StronglySorted; [apply _|].
  apply comparator_sort_Sorted; unfold second_gt, not_below; intros; lia.
Qed.

Lemma sort_ascending l :
  StronglySorted not_above (merge_sort second_lt l) ∧
  (merge_sort second_lt l).*1 ≡ₚ l.*1.
Proof.
  split; [|by rewrite merge_sort_Permutation].
  apply Sorted_StronglySorted; [apply _|].
  apply comparator_sort_Sorted; unfold second_lt, not_above; intros; lia.
Qed.

Lemma truncate_scores_fst l rs :
  truncate_scores l = Returns rs → rs.*1 = l.*1.
Proof.
  revert rs. induction l as [|[k x] l IH]; intros rs; simpl.
  { by intros [= <-]. }
  unfold truncate_score. simpl.
  destruct (Double.to_int x) as [z|] eqn:Hz; [|done]. rewrite !bind_Returns.
  destruct (truncate_scores l) as [rs'|] eqn:Hrs; [|done].
  rewrite bind_Returns. intros [= <-]. simpl. f_equal. by apply IH.
Qed.

(** The sequence returned by [recommendByCommonFriends] is in
    non-increasing order of count and names no candidate twice. *)
Theorem recommendByCommonFriends_sorted (graph : Graph) (userId : Z) :
  StronglySorted not_below (recommendByCommonFriends graph userId) ∧
  NoDup (recommendByCommonFriends graph userId).*1.
Proof.
  unfold recommendByCommonFriends.
  destruct (sort_descending
              (map_to_list (common_friend_counts graph userId)))
    as [Hsorted Hperm].
  split; [done|]. rewrite Hperm. apply NoDup_fst_map_to_list.
Qed.

(** The sequence returned by [recommendByNetworkDistance] is in
    non-decreasing order of distance and names no candidate twice. *)
Theorem recommendByNetworkDistance_sorted (graph : Graph)
    (userId maxDistance : Z) (l : list (Z * Z)) :
  recommendByNetworkDistance graph userId maxDistance = Returns l →
  StronglySorted not_above l ∧ NoDup l.*1.
Proof.
  unfold recommendByNetworkDistance. bind_returns r Hloop. intros [= <-].
  destruct (sort_ascending (map_to_list r)) as [Hsorted Hperm].
  split; [done|]. rewrite Hperm. apply NoDup_fst_map_to_list.
Qed.

Lemma recommendByNetworkDistance_sorted_witness :
  StronglySorted not_above [(5, 2); (4, 2); (6, 3)] ∧
  NoDup [(5, 2); (4, 2); (6, 3)].*1.
Proof.
  apply (recommendByNetworkDistance_sorted scenario 1 2).
  vm_compute. reflexivity.
Defined.

(** The sequence returned by [advancedRecommendation] is in non-increasing
    order of score and names no candidate twice. *)
Theorem advancedRecommendation_sorted (graph : Graph)
    (userId maxDistance : Z) (l : list (Z * Z)) :
  advancedRecommendation graph userId maxDistance = Returns l →
  StronglySorted not_below l ∧ NoDup l.*1.
Proof.
  unfold advancedRecommendation.
  bind_returns scores Hs. bind_returns rs Hrs. intros [= <-].
  destruct (sort_descending rs) as [Hsorted Hperm].
  split; [done|]. rewrite Hperm, (truncate_scores_fst _ _ Hrs).
  apply NoDup_fst_map_to_list.
Qed.

Lemma advancedRecommendation_sorted_witness :
  StronglySorted not_below [(4, 8); (5, 2)] ∧ NoDup [(4, 8); (5, 2)].*1.
Proof.
  apply (advancedRecommendation_sorted scenario 1 2).
  vm_compute. reflexivity.
Defined.

(** ** What the nested loops over friends of friends compute *)

Section friends_of_friends.
Context {V : Type} (graph : Graph).
Context (skip : Z → Prop) `{!∀ g, Decision (skip g)} (h : Z → option V → V).

(** One step of the inner loop: candidates that pass the test have their
    entry updated from its previous state. *)
#[local] Abbreviation visit :=
  (λ (m : gmap Z V) (g : Z),
     if decide (skip g) then m else <[g := h g (m !! g)]> m).

Lemma visit_each_once l m g :
  NoDup l →
  foldl visit m l !! g =
  if decide (g ∈ l ∧ ¬ skip g) then Some (h g (m !! g)) else m !! g.
Proof.
  revert m. induction l as [|x l IH]; intros m Hnd.
  { case_decide as Hg; [|done]. by destruct Hg as [?%elem_of_nil _]. }
  apply NoDup_cons in Hnd as [Hx Hnd].
  change (foldl visit m (x :: l)) with (foldl visit (visit m x) l).
  rewrite IH by done.
  destruct (decide (x = g)) as [->|Hne].
  - assert (visit m g !! g
            = if decide (skip g) then m !! g else Some (h g (m !! g))) as ->.
    { destruct (decide (skip g)); [done|apply lookup_insert_eq]. }
    pose proof (list_elem_of_here g l).
    repeat case_decide; try done; tauto.
  - assert (visit m x !! g = m !! g) as ->.
    { destruct (decide (skip x)); [done|]. by rewrite lookup_insert_ne. }
    apply decide_ext. rewrite elem_of_cons. naive_solver.
Qed.

Lemma visit_friends_of_friends fs m g :
  foldl (λ m f, foldl visit m (elements (getFriends graph f))) m fs !! g =
  if decide (skip g) then m !! g
  else Nat.iter (length (filter (λ f, g ∈ getFriends graph f) fs))
                (λ o, Some (h g o)) (m !! g).
Proof.
  revert m. induction fs as [|f fs IH]; intros m.
  { simpl. by case_decide. }
  simpl foldl. rewrite IH, visit_each_once by apply NoDup_elements.
  destruct (decide (skip g)) as [Hs|Hs].
  { case_decide; [tauto|done]. }
  destruct (decide (g ∈ getFriends graph f)) as [Hg|Hg].
  - rewrite filter_cons_True by done. simpl length.
    rewrite Nat.iter_succ_r. case_decide as Hin; [done|].
    destruct Hin. by rewrite elem_of_elements.
  - rewrite filter_cons_False by done.
    case_decide as Hin; [|done]. rewrite elem_of_elements in Hin. tauto.
Qed.

End friends_of_friends.

Lemma length_filter_elements (P : Z → Prop) `{!∀ x, Decision (P x)}
    (X : gset Z) :
  length (filter P (elements X)) = size (filter P X).
Proof.
  unfold filter at 2. unfold set_filter.
  rewrite size_list_to_set; [done|].
  apply NoDup_filter, NoDup_elements.
Qed.

Lemma iter_increment k :
  Nat.iter k (λ o, Some (default 0 o + 1)) None =
  match k with O => None | S _ => Some (Z.of_nat k) end.
Proof.
  induction k as [|k IH]; [done|]. simpl Nat.iter. rewrite IH.
  destruct k; simpl; f_equal; lia.
Qed.

Lemma common_friend_counts_lookup graph userId g :
  common_friend_counts graph userId !! g =
  if decide (g = userId ∨ g ∈ getFriends graph userId) then None
  else match size (intermediaries graph userId g) with
       | O => None
       | S k => Some (Z.of_nat (S k))
       end.
Proof.
  unfold common_friend_counts. cbv zeta.
  pose proof (visit_friends_of_friends graph
                (λ g, g = userId ∨ g ∈ getFriends graph userId)
                (λ _ o, default 0 o + 1)
                (elements (getFriends graph userId)) ∅ g) as Hfold.
  unfold count_friend_of_friend, increment. rewrite Hfold.
  case_decide; [apply lookup_empty|].
  rewrite lookup_empty, iter_increment, length_filter_elements.
  fold (intermediaries graph userId g).
  by destruct (size (intermediaries graph userId g)).
Qed.

Lemma elem_of_recommendByCommonFriends_count graph userId candidate count :
  (candidate, count) ∈ recommendByCommonFriends graph userId ↔
  candidate ≠ userId ∧ (candidate ∉ getFriends graph userId) ∧
  0 < count ∧
  count = Z.of_nat (size (intermediaries graph userId candidate)).
Proof.
  rewrite elem_of_recommendByCommonFriends, common_friend_counts_lookup.
  case_decide as Hskip.
  - split; [done|]. tauto.
  - destruct (size (intermediaries graph userId candidate)) as [|k].
    + split; [done|]. intros (_ & _ & ? & ?). lia.
    + split.
      * intros [= <-]. split_and!; [tauto|tauto|lia|done].
      * intros (_ & _ & _ & ->). done.
Qed.

(** [recommendByCommonFriends(u)] returns exactly the identifiers that are
    neither [u] nor a friend of [u] and are listed by at least one friend of
    [u], each with the number of friends of [u] that list it. *)
Theorem recommendByCommonFriends_count (graph : Graph)
    (userId candidate count : Z) :
  (candidate, count) ∈ recommendByCommonFriends graph userId ↔
  candidate ≠ userId ∧ (candidate ∉ getFriends graph userId) ∧
  0 < count ∧
  count = Z.of_nat (size (intermediaries graph userId candidate)).
Proof. apply elem_of_recommendByCommonFriends_count. Qed.

Lemma recommendByCommonFriends_count_witness :
  (4, 2) ∈ recommendByCommonFriends scenario 1 ∧
  2 = Z.of_nat (size (intermediaries scenario 1 4)).
Proof.
  assert ((4, 2) ∈ recommendByCommonFriends scenario 1) as H
    by (vm_compute; apply list_elem_of_here).
  split; [exact H|].
  apply (proj1 (recommendByCommonFriends_count scenario 1 4 2) H).
Defined.

Lemma intermediaries_mutual graph userId candidate :
  mutual graph →
  intermediaries graph userId candidate
  = getFriends graph userId ∩ getFriends graph candidate.
Proof.
  intros Hm. apply set_eq. intros f. unfold intermediaries.
  rewrite elem_of_filter, elem_of_intersection, (Hm f candidate). tauto.
Qed.

(** In a graph whose connections are mutual, the count returned with a
    candidate is the number of friends the user and the candidate have in
    common. *)
Theorem recommendByCommonFriends_mutual (graph : Graph)
    (userId candidate count : Z) :
  mutual graph →
  (candidate, count) ∈ recommendByCommonFriends graph userId →
  count = Z.of_nat (size (getFriends graph userId
                          ∩ getFriends graph candidate)).
Proof.
  intros Hm (_ & _ & _ & ->)%elem_of_recommendByCommonFriends_count.
  by rewrite intermediaries_mutual.
Qed.

Lemma recommendByCommonFriends_mutual_witness :
  2 = Z.of_nat (size (getFriends scenario 1 ∩ getFriends scenario 4)).
Proof.
  apply (recommendByCommonFriends_mutual scenario 1 4 2).
  - apply mutual_run.
  - vm_compute. apply list_elem_of_here.
Defined.

(** ** The scores of the advanced recommendation, in closed form *)

Lemma for_each_pure {S A} (body : S → A → outcome S) (f : S → A → S) l s :
  (∀ s x, x ∈ l → body s x = Returns (f s x)) →
  for_each body s l = Returns (foldl f s l).
Proof.
  revert s. induction l as [|x l IH]; intros s Hbody; [done|].
  rewrite for_each_cons, Hbody, bind_Returns by apply list_elem_of_here.
  simpl. apply IH. intros s' y Hy. by apply Hbody, list_elem_of_further.
Qed.

Lemma count_common_size graph userFriends g :
  count_common graph userFriends g
  = Z.of_nat (size (userFriends ∩ getFriends graph g)).
Proof.
  unfold count_common.
  assert (∀ l c,
    foldl (λ commonFriends commonFriend,
             if decide (commonFriend ∈ getFriends graph g)
             then commonFriends + 1 else commonFriends) c l
    = c + Z.of_nat (length (filter (λ x, x ∈ getFriends graph g) l)))
    as Hfold.
  { induction l as [|x l IH]; intros c; simpl; [lia|].
    rewrite IH. destruct (decide (x ∈ getFriends graph g)).
    - rewrite filter_cons_True by done. simpl length. lia.
    - by rewrite filter_cons_False by done. }
  rewrite Hfold, length_filter_elements, Z.add_0_l. do 2 f_equal.
  apply set_eq. intros x. rewrite elem_of_filter, elem_of_intersection. tauto.
Qed.

Lemma iter_accumulate k score :
  Nat.iter k (λ o, Some (Double.add (default Double.zero o) score)) None =
  match k with O => None | S _ => Some (repeated_sum k score) end.
Proof.
  induction k as [|k IH]; [done|]. simpl Nat.iter. rewrite IH.
  by destruct k.
Qed.

Section advanced_scores.
Variables (graph : Graph) (userId : Z).

Lemma score_friend_of_friend_pure scores currentFriend fof :
  currentFriend ∈ getFriends graph userId →
  fof ∈ getFriends graph currentFriend →
  score_friend_of_friend graph userId (getFriends graph userId) scores fof =
  Returns
    (if decide (fof = userId ∨ fof ∈ getFriends graph userId) then scores
     else <[fof := Double.add (default Double.zero (scores !! fof))
                              (encounter_score graph userId fof)]> scores).
Proof.
  intros Hfriend Hfof. unfold score_friend_of_friend.
  case_decide as Hskip; [done|].
  rewrite (friend_of_friend_distance graph userId currentFriend fof)
    by tauto.
  rewrite bind_Returns, count_common_size. done.
Qed.

Lemma recommendation_scores_lookup :
  ∃ scores, recommendation_scores graph userId = Returns scores ∧
    ∀ g, scores !! g =
      if decide (g = userId ∨ g ∈ getFriends graph userId) then None
      else match size (intermediaries graph userId g) with
           | O => None
           | S k => Some (repeated_sum (S k) (encounter_score graph userId g))
           end.
Proof.
  eexists. split.
  - unfold recommendation_scores. cbv zeta. apply for_each_pure.
    intros scores currentFriend Hfriend%elem_of_elements.
    apply for_each_pure. intros scores' fof Hfof%elem_of_elements.
    by apply (score_friend_of_friend_pure _ currentFriend).
  - intros g.
    rewrite (visit_friends_of_friends graph
               (λ g, g = userId ∨ g ∈ getFriends graph userId)
               (λ g o, Double.add (default Double.zero o)
                                  (encounter_score graph userId g))).
    case_decide; [apply lookup_empty|].
    rewrite lookup_empty, iter_accumulate, length_filter_elements.
    fold (intermediaries graph userId g).
    by destruct (size (intermediaries graph userId g)).
Qed.

End advanced_scores.

Lemma elem_of_truncate_scores_2 l rs k x :
  truncate_scores l = Returns rs → (k, x) ∈ l →
  ∃ z, (k, z) ∈ rs ∧ Double.to_int x = Returns z.
Proof.
  revert rs. induction l as [|[k' x'] l IH]; intros rs; simpl.
  { intros _ Hin. by apply elem_of_nil in Hin. }
  unfold truncate_score. simpl.
  destruct (Double.to_int x') as [z'|] eqn:Hx; [|done].
  rewrite !bind_Returns.
  destruct (truncate_scores l) as [rs'|] eqn:Hl; [|done].
  rewrite bind_Returns. intros [= <-] [[= -> ->]|Hin]%elem_of_cons.
  - exists z'. split; [apply list_elem_of_here|done].
  - destruct (IH rs' eq_refl Hin) as (z & Hz & Hcast).
    exists z. split; [by apply list_elem_of_further|done].
Qed.

Lemma elem_of_advancedRecommendation graph userId maxDistance l scores :
  recommendation_scores graph userId = Returns scores →
  advancedRecommendation graph userId maxDistance = Returns l →
  ∀ c z, (c, z) ∈ l ↔
         ∃ x, scores !! c = Some x ∧ Double.to_int x = Returns z.
Proof.
  intros Hs. unfold advancedRecommendation. rewrite Hs, bind_Returns.
  bind_returns rs Hrs. intros [= <-] c z.
  rewrite merge_sort_Permutation. split.
  - intros Hin. destruct (elem_of_truncate_scores _ _ _ _ Hrs Hin)
      as (x & Hx%elem_of_map_to_list & Hz). eauto.
  - intros (x & Hx%elem_of_map_to_list & Hz).
    destruct (elem_of_truncate_scores_2 _ _ _ _ Hrs Hx) as (z' & Hin & Hz').
    congruence.
Qed.

Lemma elem_of_advancedRecommendation_score graph userId maxDistance l
    candidate score :
  advancedRecommendation graph userId maxDistance = Returns l →
  ((candidate, score) ∈ l ↔
   candidate ≠ userId ∧ (candidate ∉ getFriends graph userId) ∧
   size (intermediaries graph userId candidate) ≠ 0%nat ∧
   Double.to_int
     (repeated_sum (size (intermediaries graph userId candidate))
                   (encounter_score graph userId candidate))
   = Returns score).
Proof.
  intros Hl.
  destruct (recommendation_scores_lookup graph userId)
    as (scores & Hs & Hlookup).
  rewrite (elem_of_advancedRecommendation _ _ _ _ _ Hs Hl), Hlookup.
  case_decide as Hskip.
  { split; [by intros (x & ? & _)|tauto]. }
  destruct (size (intermediaries graph userId candidate)) as [|k].
  { split; [by intros (x & ? & _)|]. by intros (_ & _ & ? & _). }
  split.
  - intros (x & [= <-] & Hz). split_and!; [tauto|tauto|done|done].
  - intros (_ & _ & _ & Hz). eauto.
Qed.

(** [advancedRecommendation(u, _)] returns exactly the identifiers that are
    neither [u] nor a friend of [u] and are listed by [k > 0] friends of
    [u]; the score of such a candidate is the truncation of the double
    obtained by adding [commonFriends * 2 + 1.0 / 3] to 0.0 [k] times over,
    [commonFriends] being the number of friends of [u] that the candidate
    lists. *)
Theorem advancedRecommendation_score (graph : Graph)
    (userId maxDistance : Z) (l : list (Z * Z)) (candidate score : Z) :
  advancedRecommendation graph userId maxDistance = Returns l →
  ((candidate, score) ∈ l ↔
   candidate ≠ userId ∧ (candidate ∉ getFriends graph userId) ∧
   size (intermediaries graph userId candidate) ≠ 0%nat ∧
   Double.to_int
     (repeated_sum (size (intermediaries graph userId candidate))
                   (encounter_score graph userId candidate))
   = Returns score).
Proof. apply elem_of_advancedRecommendation_score. Qed.

Lemma advancedRecommendation_score_witness :
  Double.to_int
    (repeated_sum (size (intermediaries scenario 1 4))
                  (encounter_score scenario 1 4))
  = Returns 8.
Proof.
  apply (advancedRecommendation_score scenario 1 2 [(4, 8); (5, 2)] 4 8).
  - vm_compute. reflexivity.
  - apply list_elem_of_here.
Defined.

(** [advancedRecommendation] and [recommendByCommonFriends] recommend the
    same candidates. *)
Theorem advancedRecommendation_candidates (graph : Graph)
    (userId maxDistance : Z) (l : list (Z * Z)) (candidate : Z) :
  advancedRecommendation graph userId maxDistance = Returns l →
  (candidate ∈ l.*1 ↔ candidate ∈ (recommendByCommonFriends graph userId).*1).
Proof.
  intros Hl.
  destruct (recommendation_scores_lookup graph userId)
    as (scores & Hs & Hlookup).
  assert (candidate ∈ l.*1 ↔ is_Some (scores !! candidate)) as ->.
  { revert Hl. unfold advancedRecommendation. rewrite Hs, bind_Returns.
    bind_returns rs Hrs. intros [= <-].
    rewrite merge_sort_Permutation, (truncate_scores_fst _ _ Hrs).
    rewrite list_elem_of_fmap. split.
    - intros ([c x] & -> & Hx%elem_of_map_to_list). eauto.
    - intros [x Hx]. exists (candidate, x).
      split; [done|by apply elem_of_map_to_list]. }
  assert (candidate ∈ (recommendByCommonFriends graph userId).*1 ↔
          is_Some (common_friend_counts graph userId !! candidate)) as ->.
  { unfold recommendByCommonFriends.
    rewrite merge_sort_Permutation, list_elem_of_fmap. split.
    - intros ([c x] & -> & Hx%elem_of_map_to_list). eauto.
    - intros [x Hx]. exists (candidate, x).
      split; [done|by apply elem_of_map_to_list]. }
  rewrite Hlookup, common_friend_counts_lookup.
  case_decide; [done|].
  destruct (size (intermediaries graph userId candidate));
    [done|split; eauto].
Qed.

Lemma advancedRecommendation_candidates_witness :
  4 ∈ [(4, 8); (5, 2)].*1 ↔ 4 ∈ (recommendByCommonFriends scenario 1).*1.
Proof.
  apply (advancedRecommendation_candidates scenario 1 2).
  vm_compute. reflexivity.
Defined.

(** In a graph whose connections are mutual, a candidate with [n] friends
    in common with the user is met [n] times, so its score is the
    truncation of [n] additions of [n * 2 + 1.0 / 3]. *)
Theorem advancedRecommendation_mutual (graph : Graph)
    (userId maxDistance : Z) (l : list (Z * Z)) (candidate score : Z) :
  mutual graph →
  advancedRecommendation graph userId maxDistance = Returns l →
  (candidate, score) ∈ l →
  let n := size (getFriends graph userId ∩ getFriends graph candidate) in
  n ≠ 0%nat ∧
  Double.to_int
    (repeated_sum n
       (Double.add (Double.of_int (Z.of_nat n * 2))
                   (Double.div Double.one (Double.of_int 3))))
  = Returns score.
Proof.
  intros Hm Hl Hin.
  apply (elem_of_advancedRecommendation_score _ _ _ _ _ _ Hl) in Hin
    as (_ & _ & Hk & Hz).
  rewrite intermediaries_mutual in Hk, Hz by done. done.
Qed.

Lemma advancedRecommendation_mutual_witness :
  let n := size (getFriends scenario 1 ∩ getFriends scenario 4) in
  n ≠ 0%nat ∧
  Double.to_int
    (repeated_sum n
       (Double.add (Double.of_int (Z.of_nat n * 2))
                   (Double.div Double.one (Double.of_int 3))))
  = Returns 8.
Proof.
  apply (advancedRecommendation_mutual scenario 1 2 [(4, 8); (5, 2)] 4 8).
  - apply mutual_run.
  - vm_compute. reflexivity.
  - apply list_elem_of_here.
Defined.

(** ** The network-distance recommendation, exactly *)

Lemma shortest_unique graph a b n n' :
  shortest graph a b n → shortest graph a b n' → n = n'.
Proof.
  intros [Hn Hmin] [Hn' Hmin']. apply Hmin in Hn'. apply Hmin' in Hn. lia.
Qed.

Lemma search_inv_reachable graph a target V w k :
  search_inv graph a target V [] → hops graph a w k → w ∈ V.
Proof.
  intros Hinv Hk. induction Hk as [|b c k Hk IH Hc].
  - apply (inv_source Hinv).
  - destruct (inv_done Hinv b IH) as [Hq|[_ Hb]]; [|by apply Hb].
    simpl in Hq. by apply elem_of_nil in Hq.
Qed.

Section network_distance_exact.
Variables (graph : Graph) (userId maxDistance : Z) (direct : gset Z).
Hypothesis Hdirect : graph !! userId = Some direct.

Lemma discover_known d st x :
  discover graph userId d st x =
  Returns
    (if decide (x ∈ visited st) then st
     else Traversal
            (if decide (x ≠ userId ∧ x ∉ direct)
             then <[x := d + 1]> (distances st) else distances st)
            ({[x]} ∪ visited st) (queue st ++ [(x, d + 1)])).
Proof.
  unfold discover. rewrite Hdirect. repeat case_decide; try done; tauto.
Qed.

(** The [for] loop of [recommendByNetworkDistance] moves the visited set
    and the queue as the one of [getNetworkDistance] does, and records a
    distance for the newly visited users that are not direct friends. *)
Lemma for_each_discover_spec d l st :
  ∃ st', for_each (discover graph userId d) st l = Returns st' ∧
    (visited st', queue st')
    = foldl (enqueue_unvisited d) (visited st, queue st) l ∧
    ∀ c, distances st' !! c =
      if decide (c ∈ l ∧ (c ∉ visited st) ∧ c ≠ userId ∧ c ∉ direct)
      then Some (d + 1) else distances st !! c.
Proof.
  revert st. induction l as [|x l IH]; intros st.
  { exists st. split_and!; [done|done|]. intros c.
    case_decide as Hc; [|done]. by destruct Hc as [?%elem_of_nil _]. }
  rewrite for_each_cons, discover_known, bind_Returns.
  simpl foldl. rewrite enqueue_unvisited_eq.
  destruct (decide (x ∈ visited st)) as [Hx|Hx].
  - destruct (IH st) as (st' & -> & Hvq & Hd).
    exists st'. split_and!; [done|done|]. intros c. rewrite Hd.
    apply decide_ext. rewrite elem_of_cons. naive_solver.
  - match goal with |- context [for_each _ ?s l] => set (st1 := s) end.
    destruct (IH st1) as (st' & -> & Hvq & Hd).
    exists st'. split_and!; [done|done|]. intros c. rewrite Hd. simpl.
    destruct (decide (c = x)) as [->|Hne].
    + pose proof (list_elem_of_here x l).
      assert (x ∈ ({[x]} ∪ visited st : gset Z)) by set_solver.
      repeat case_decide; rewrite ?lookup_insert_eq; try done; tauto.
    + assert ((if decide (x ≠ userId ∧ x ∉ direct)
               then <[x:=d + 1]> (distances st) else distances st) !! c
              = distances st !! c) as ->.
      { case_decide; [by rewrite lookup_insert_ne|done]. }
      apply decide_ext. rewrite elem_of_cons. set_solver.
Qed.

Variable target : Z.
Hypothesis Htarget : target ≠ userId ∧ target ∉ all_neighbors graph.

#[local] Abbreviation walk_inv := (walk_inv graph userId direct).
#[local] Abbreviation search_inv := (search_inv graph userId target).

Lemma walk_inv_start : walk_inv (Traversal ∅ {[userId]} [(userId, 0)]).
Proof.
  split; simpl.
  - intros c d. by rewrite lookup_empty.
  - intros c ->%elem_of_singleton. by left.
  - intros c ->%elem_of_singleton. by left.
Qed.

Lemma walk_inv_step st c d rest :
  search_inv (visited st) ((c, d) :: rest) → walk_inv st →
  ∃ st', for_each (discover graph userId d)
                  (Traversal (distances st) (visited st) rest)
                  (elements (getFriends graph c)) = Returns st' ∧
    search_inv (visited st') (queue st') ∧ walk_inv st'.
Proof.
  intros Hsearch Hwalk.
  destruct (for_each_discover_spec d (elements (getFriends graph c))
              (Traversal (distances st) (visited st) rest))
    as (st' & Hfor & Hvq & Hdist).
  simpl in Hvq, Hdist.
  assert (c ≠ target) as Hc.
  { destruct (inv_queue Hsearch c d) as [HcV _]; [apply list_elem_of_here|].
    destruct (walk_bound Hwalk c HcV) as [->|?]; intros <-; tauto. }
  pose proof (search_inv_step graph userId target _ _ _ _ Hsearch Hc)
    as Hsearch'.
  cbv zeta in Hsearch'. rewrite <-Hvq in Hsearch'. simpl in Hsearch'.
  destruct (enqueue_unvisited_spec d (elements (getFriends graph c))
              (visited st) rest) as [HV (news & Hnews_q & Hnews)].
  rewrite <-Hvq in HV, Hnews_q. simpl in HV, Hnews_q.
  exists st'. split_and!; [done|done|]. split.
  - intros e de. rewrite Hdist. case_decide as Hcond.
    + intros [= <-]. destruct Hcond as (He & HeV & Heu & Hed).
      split_and!; [done|done|].
      destruct (inv_queue Hsearch' e (d + 1)) as [_ Hshort]; [|done].
      rewrite Hnews_q. apply elem_of_app. right. by apply Hnews.
    + apply (walk_sound Hwalk).
  - intros e He. rewrite Hdist. apply HV in He.
    destruct (decide (e ∈ visited st)) as [HeV|HeV].
    + destruct (walk_complete Hwalk e HeV) as [?|[?|?]]; [tauto|tauto|].
      right. right. by case_decide.
    + destruct He as [?|He]; [done|].
      destruct (decide (e = userId)); [tauto|].
      destruct (decide (e ∈ direct)); [tauto|].
      right. right. rewrite decide_True; [eauto|done].
  - intros e He. apply HV in He. destruct He as [He|He].
    + by apply (walk_bound Hwalk).
    + right. apply elem_of_elements in He. by eapply elem_of_all_neighbors.
Qed.

Lemma distance_loop_exact fuel st r :
  search_inv (visited st) (queue st) → walk_inv st →
  distance_loop fuel graph userId maxDistance st = Returns r →
  ∀ c n, shortest graph userId c n → Z.of_nat n ≤ maxDistance + 1 →
         c ≠ userId → c ∉ direct → r !! c = Some (Z.of_nat n).
Proof.
  revert st. induction fuel as [|fuel IH]; intros st Hsearch Hwalk; [done|].
  simpl. destruct (queue st) as [|[c0 d0] rest] eqn:Hq.
  - intros [= <-] c n Hn Hle Hu Hd.
    assert (c ∈ visited st) as HcV.
    { eapply search_inv_reachable; [exact Hsearch|apply Hn]. }
    destruct (walk_complete Hwalk c HcV) as [?|[?|[d Hcd]]]; [done|done|].
    destruct (walk_sound Hwalk c d Hcd) as (_ & _ & n' & -> & Hn').
    by rewrite Hcd, (shortest_unique _ _ _ _ _ Hn Hn').
  - case_decide as Hcut.
    + intros [= <-] c n Hn Hle Hu Hd.
      assert (c ∈ visited st) as HcV.
      { destruct (decide (c ∈ visited st)) as [|HcV]; [done|exfalso].
        destruct (frontier graph userId target _ _ c n Hsearch (proj1 Hn) HcV)
          as (v & dv & Hv & Hlt).
        pose proof (two_level_tail _ _ _ (inv_levels Hsearch)) as Hlev.
        apply elem_of_cons in Hv as [[= -> ->]|Hv]; [lia|].
        pose proof (two_level_ge _ _ _ _ Hlev Hv). lia. }
      destruct (walk_complete Hwalk c HcV) as [?|[?|[d Hcd]]]; [done|done|].
      destruct (walk_sound Hwalk c d Hcd) as (_ & _ & n' & -> & Hn').
      by rewrite Hcd, (shortest_unique _ _ _ _ _ Hn Hn').
    + destruct (walk_inv_step st c0 d0 rest Hsearch Hwalk)
        as (st' & -> & Hsearch' & Hwalk').
      rewrite bind_Returns. by apply IH.
Qed.

Lemma distance_loop_sound fuel st r :
  search_inv (visited st) (queue st) → walk_inv st →
  distance_loop fuel graph userId maxDistance st = Returns r →
  ∀ c d, r !! c = Some d →
         c ≠ userId ∧ (c ∉ direct) ∧
         ∃ n, d = Z.of_nat n ∧ shortest graph userId c n.
Proof.
  revert st. induction fuel as [|fuel IH]; intros st Hsearch Hwalk; [done|].
  simpl. destruct (queue st) as [|[c0 d0] rest] eqn:Hq.
  - intros [= <-]. apply (walk_sound Hwalk).
  - case_decide as Hcut.
    + intros [= <-]. apply (walk_sound Hwalk).
    + destruct (walk_inv_step st c0 d0 rest Hsearch Hwalk)
        as (st' & -> & Hsearch' & Hwalk').
      rewrite bind_Returns. by apply IH.
Qed.

End network_distance_exact.

Lemma elem_of_recommendByNetworkDistance graph userId maxDistance l :
  recommendByNetworkDistance graph userId maxDistance = Returns l →
  ∀ c d, (c, d) ∈ l ↔
    c ≠ userId ∧ (c ∉ getFriends graph userId) ∧ d ≤ maxDistance + 1 ∧
    ∃ n, d = Z.of_nat n ∧ shortest graph userId c n.
Proof.
  destruct (graph !! userId) as [direct|] eqn:Hdirect.
  - assert (getFriends graph userId = direct) as ->
      by (unfold getFriends; by rewrite Hdirect).
    destruct (exist_fresh ({[userId]} ∪ all_neighbors graph)) as [target Ht].
    assert (target ≠ userId ∧ target ∉ all_neighbors graph) as Htarget
      by set_solver.
    unfold recommendByNetworkDistance. bind_returns r Hloop. intros [= <-] c d.
    rewrite merge_sort_Permutation, elem_of_map_to_list.
    pose proof (search_inv_start graph userId target) as Hsearch.
    pose proof (walk_inv_start graph userId direct) as Hwalk.
    split.
    + intros Hcd.
      destruct (distance_loop_sound graph userId maxDistance direct Hdirect
                  target Htarget _ (Traversal ∅ {[userId]} [(userId, 0)])
                  _ Hsearch Hwalk Hloop c d Hcd)
        as (? & ? & ?).
      split_and!; [done|done| |done].
      eapply (distance_loop_recorded_within graph userId maxDistance);
        [|exact Hloop|exact Hcd].
      intros ??. simpl. by rewrite lookup_empty.
    + intros (Hu & Hd & Hle & n & -> & Hn).
      by eapply (distance_loop_exact graph userId maxDistance direct Hdirect
                   target Htarget _ (Traversal ∅ {[userId]} [(userId, 0)])
                   _ Hsearch Hwalk Hloop).
  - rewrite recommendByNetworkDistance_unknown by done. intros [= <-] c d.
    split; [by intros ?%elem_of_nil|].
    intros (Hu & _ & _ & n & _ & [Hn _]).
    by apply hops_from_unknown in Hn.
Qed.

(** [recommendByNetworkDistance(u, maxDistance)] returns exactly the
    identifiers, other than [u] and the direct friends of [u], whose
    shortest hop count from [u] is at most [maxDistance + 1], each with that
    hop count. *)
Theorem recommendByNetworkDistance_exact (graph : Graph)
    (userId maxDistance : Z) (l : list (Z * Z)) (candidate distance : Z) :
  recommendByNetworkDistance graph userId maxDistance = Returns l →
  ((candidate, distance) ∈ l ↔
   candidate ≠ userId ∧ (candidate ∉ getFriends graph userId) ∧
   distance ≤ maxDistance + 1 ∧
   ∃ n, distance = Z.of_nat n ∧ shortest graph userId candidate n).
Proof. intros Hl. by apply elem_of_recommendByNetworkDistance. Qed.

Lemma recommendByNetworkDistance_exact_witness :
  (4, 3) ∈ [(3, 2); (4, 3)] ↔
  4 ≠ 1 ∧ (4 ∉ getFriends chain 1) ∧ 3 ≤ 2 + 1 ∧
  ∃ n, 3 = Z.of_nat n ∧ shortest chain 1 4 n.
Proof.
  apply (recommendByNetworkDistance_exact chain 1 2).
  vm_compute. reflexivity.
Defined.

(** With [maxDistance] zero or negative nothing is recommended. *)
Theorem recommendByNetworkDistance_nonpositive (graph : Graph)
    (userId maxDistance : Z) :
  maxDistance ≤ 0 →
  recommendByNetworkDistance graph userId maxDistance = Returns [].
Proof.
  intros Hm.
  assert (∃ l, recommendByNetworkDistance graph userId maxDistance
               = Returns l) as [l Hl].
  { destruct (graph !! userId) as [direct|] eqn:Hu.
    - destruct (distance_loop_returns graph userId maxDistance
                  (bfs_fuel graph) (Traversal ∅ {[userId]} [(userId, 0)]))
        as [r Hr]; [by rewrite Hu|apply pending_start|].
      unfold recommendByNetworkDistance. rewrite Hr, bind_Returns.
      by eexists.
    - exists []. by apply recommendByNetworkDistance_unknown. }
  rewrite Hl. f_equal. destruct l as [|[c d] l]; [done|exfalso].
  destruct (proj1 (elem_of_recommendByNetworkDistance _ _ _ _ Hl c d))
    as (Hu & Hd & Hle & n & -> & Hn & _); [apply list_elem_of_here|].
  destruct n as [|[|n]]; [|by inversion Hn as [|b ? ? Hb Hbc]; subst;
                             inversion Hb; subst|lia].
  by inversion Hn.
Qed.

Lemma recommendByNetworkDistance_nonpositive_witness :
  recommendByNetworkDistance scenario 1 0 = Returns [].
Proof. apply recommendByNetworkDistance_nonpositive. lia. Defined.

(** Every distance that [recommendByNetworkDistance] reports is at least 2
    and is the one [getNetworkDistance] computes for the same pair. *)
Theorem recommendByNetworkDistance_agrees (graph : Graph)
    (userId maxDistance : Z) (l : list (Z * Z)) (candidate distance : Z) :
  recommendByNetworkDistance graph userId maxDistance = Returns l →
  (candidate, distance) ∈ l →
  2 ≤ distance ∧ getNetworkDistance graph userId candidate = Returns distance.
Proof.
  intros Hl (Hu & Hd & _ & n & -> & Hn)%(elem_of_recommendByNetworkDistance
                                          _ _ _ _ Hl).
  split.
  - destruct n as [|[|n]]; [| |lia].
    + destruct Hn as [Hn _]. by inversion Hn.
    + destruct Hn as [Hn _]. inversion Hn as [|b ? ? Hb Hbc]; subst.
      inversion Hb; subst. done.
  - destruct (getNetworkDistance_post graph userId candidate)
      as (r & -> & [(n' & Hn' & ->)|[Hnone _]]).
    + by rewrite (shortest_unique _ _ _ _ _ Hn Hn').
    + destruct Hn as [Hn _]. by destruct (Hnone n).
Qed.

Lemma recommendByNetworkDistance_agrees_witness :
  2 ≤ 3 ∧ getNetworkDistance chain 1 4 = Returns 3.
Proof.
  apply (recommendByNetworkDistance_agrees chain 1 2 [(3, 2); (4, 3)] 4 3).
  - vm_compute. reflexivity.
  - apply list_elem_of_further, list_elem_of_here.
Defined.

(** ** More on the pairwise distance *)

Lemma hops_prepend graph a b c n :
  b ∈ getFriends graph a → hops graph b c n → hops graph a c (S n).
Proof.
  intros Hab Hbc. induction Hbc as [|x y n Hx IH Hy].
  - eapply hops_next; [constructor|done].
  - eapply hops_next; [exact IH|done].
Qed.

Lemma hops_reverse graph a b n :
  mutual graph → hops graph a b n → hops graph b a n.
Proof.
  intros Hm Hab. induction Hab as [|x y n Hx IH Hy]; [constructor|].
  eapply hops_prepend; [|exact IH]. by apply Hm.
Qed.

Lemma shortest_reverse graph a b n :
  mutual graph → shortest graph a b n → shortest graph b a n.
Proof.
  intros Hm [Hn Hmin]. split; [by apply hops_reverse|].
  intros k Hk. by apply Hmin, hops_reverse.
Qed.

(** In a graph whose connections are mutual the distance does not depend on
    the direction. *)
Theorem getNetworkDistance_symmetric (graph : Graph) (a b : Z) :
  mutual graph →
  getNetworkDistance graph a b = getNetworkDistance graph b a.
Proof.
  intros Hm.
  destruct (getNetworkDistance_post graph a b) as (r1 & -> & Hr1).
  destruct (getNetworkDistance_post graph b a) as (r2 & -> & Hr2).
  f_equal.
  destruct Hr1 as [(n1 & Hn1 & ->)|[Hnone1 ->]],
           Hr2 as [(n2 & Hn2 & ->)|[Hnone2 ->]]; [| | |done].
  - apply shortest_reverse in Hn2; [|done].
    by rewrite (shortest_unique _ _ _ _ _ Hn1 Hn2).
  - destruct Hn1 as [Hn1 _]. apply hops_reverse in Hn1; [|done].
    by destruct (Hnone2 n1).
  - destruct Hn2 as [Hn2 _]. apply hops_reverse in Hn2; [|done].
    by destruct (Hnone1 n2).
Qed.

Lemma getNetworkDistance_symmetric_witness :
  getNetworkDistance scenario 1 6 = getNetworkDistance scenario 6 1.
Proof. apply getNetworkDistance_symmetric, mutual_run. Defined.

(** The distance is 1 exactly for a direct friend other than oneself. *)
Theorem getNetworkDistance_one (graph : Graph) (a b : Z) :
  getNetworkDistance graph a b = Returns 1 ↔
  a ≠ b ∧ b ∈ getFriends graph a.
Proof.
  destruct (getNetworkDistance_post graph a b) as (r & -> & Hr). split.
  - intros [= ->]. destruct Hr as [(n & [Hn Hmin] & Hone)|[_ ?]]; [|done].
    assert (n = 1%nat) as -> by lia. split.
    + intros ->. specialize (Hmin 0%nat (hops_here _ _)). lia.
    + inversion Hn as [|c ? ? Hc Hcb]; subst. by inversion Hc; subst.
  - intros [Hne Hb]. f_equal.
    assert (hops graph a b 1) as Hone
      by (eapply hops_next; [constructor|done]).
    destruct Hr as [(n & [Hn Hmin] & ->)|[Hnone _]];
      [|by destruct (Hnone 1%nat)].
    specialize (Hmin _ Hone). destruct n as [|[|n]]; [|done|lia].
    by inversion Hn.
Qed.

(** ** Users without friends *)

Lemma recommendByNetworkDistance_returns graph userId maxDistance :
  ∃ l, recommendByNetworkDistance graph userId maxDistance = Returns l.
Proof.
  destruct (graph !! userId) as [direct|] eqn:Hu.
  - destruct (distance_loop_returns graph userId maxDistance
                (bfs_fuel graph) (Traversal ∅ {[userId]} [(userId, 0)]))
      as [r Hr]; [by rewrite Hu|apply pending_start|].
    unfold recommendByNetworkDistance. rewrite Hr, bind_Returns.
    by eexists.
  - exists []. by apply recommendByNetworkDistance_unknown.
Qed.

Lemma no_friends_no_recommendations graph userId maxDistance :
  getFriends graph userId = ∅ →
  recommendByCommonFriends graph userId = [] ∧
  recommendByNetworkDistance graph userId maxDistance = Returns [] ∧
  advancedRecommendation graph userId maxDistance = Returns [].
Proof.
  intros Hnone. split_and!.
  - unfold recommendByCommonFriends, common_friend_counts.
    by rewrite Hnone, elements_empty.
  - unfold recommendByNetworkDistance, bfs_fuel. simpl.
    case_decide; [done|]. by rewrite Hnone, elements_empty.
  - unfold advancedRecommendation, recommendation_scores.
    by rewrite Hnone, elements_empty.
Qed.

(** For a user without friends, in particular for an identifier that is
    not a user, the three recommendation methods return the empty
    sequence. *)
Theorem recommendations_without_friends (graph : Graph)
    (userId maxDistance : Z) :
  getFriends graph userId = ∅ →
  recommendByCommonFriends graph userId = [] ∧
  recommendByNetworkDistance graph userId maxDistance = Returns [] ∧
  advancedRecommendation graph userId maxDistance = Returns [].
Proof. apply no_friends_no_recommendations. Qed.

Lemma recommendations_without_friends_witness :
  recommendByCommonFriends (addUser chain 7) 7 = [] ∧
  recommendByNetworkDistance (addUser chain 7) 7 2 = Returns [] ∧
  advancedRecommendation (addUser chain 7) 7 2 = Returns [].
Proof.
  apply recommendations_without_friends. vm_compute. reflexivity.
Defined.

(** ** The driver *)

Section driver.
Implicit Types (graph : Graph) (connections : list (Z * Z)).

Lemma foldl_addUser_spec l graph c :
  (is_Some (foldl addUser graph l !! c) ↔ c ∈ l ∨ is_Some (graph !! c)) ∧
  getFriends (foldl addUser graph l) c = getFriends graph c.
Proof.
  revert graph. induction l as [|u l IH]; intros graph; simpl.
  { split; [|done]. rewrite elem_of_nil. tauto. }
  destruct (IH (addUser graph u)) as [Hdom Hfriends].
  rewrite Hdom, Hfriends, addUser_is_Some, getFriends_addUser, elem_of_cons.
  split; [naive_solver|done].
Qed.

Lemma foldl_addConnection_spec connections graph c :
  (is_Some (foldl (λ g p, addConnection g p.1 p.2) graph connections !! c) ↔
   is_Some (graph !! c) ∨
   ∃ x, (c, x) ∈ connections ∨ (x, c) ∈ connections) ∧
  (∀ x, x ∈ getFriends
          (foldl (λ g p, addConnection g p.1 p.2) graph connections) c ↔
        x ∈ getFriends graph c ∨ (c, x) ∈ connections ∨ (x, c) ∈ connections).
Proof.
  revert graph. induction connections as [|[a b] connections IH];
    intros graph; simpl.
  { split; [|intros x]; setoid_rewrite elem_of_nil; naive_solver. }
  destruct (IH (addConnection graph a b)) as [Hdom Hfriends]. split.
  - rewrite Hdom, addConnection_is_Some.
    setoid_rewrite elem_of_cons. naive_solver.
  - intros x. rewrite Hfriends, elem_of_getFriends_addConnection.
    rewrite !elem_of_cons. naive_solver.
Qed.

Lemma build_network_run users connections :
  build_network users connections =
  run ((AddUser <$> seqZ 0 users)
       ++ ((λ p, AddConnection p.1 p.2) <$> connections)).
Proof.
  unfold build_network, run. rewrite foldl_app, !foldl_fmap. done.
Qed.

Lemma build_network_is_Some (users : Z) connections c :
  is_Some (build_network users connections !! c) ↔
  0 ≤ c < users ∨ ∃ x, (c, x) ∈ connections ∨ (x, c) ∈ connections.
Proof.
  unfold build_network.
  rewrite (proj1 (foldl_addConnection_spec _ _ c)).
  rewrite (proj1 (foldl_addUser_spec _ _ c)), elem_of_seqZ, lookup_empty.
  split; [intros [[?|[? [=]]]|?]|intros [?|?]]; auto with lia.
Qed.

(** The network the driver builds has for users the identifiers
    [0 .. users - 1] and the endpoints of the connections read; the friends
    of a user are the identifiers paired with it in the input, in either
    position; connections are mutual. *)
Theorem build_network_spec (users : Z) connections :
  (∀ c, is_Some (build_network users connections !! c) ↔
        0 ≤ c < users ∨ ∃ x, (c, x) ∈ connections ∨ (x, c) ∈ connections) ∧
  (∀ c x, x ∈ getFriends (build_network users connections) c ↔
          (c, x) ∈ connections ∨ (x, c) ∈ connections) ∧
  mutual (build_network users connections).
Proof.
  split_and!.
  - apply build_network_is_Some.
  - intros c x. unfold build_network.
    rewrite (proj2 (foldl_addConnection_spec _ _ c)).
    rewrite (proj2 (foldl_addUser_spec _ _ c)).
    unfold getFriends at 1. rewrite lookup_empty. set_solver.
  - rewrite build_network_run. apply mutual_run.
Qed.

Lemma recommend_returns graph maxDistance i r :
  recommend graph maxDistance i = Returns r →
  for_user r = i ∧
  by_common_friends r = recommendByCommonFriends graph i ∧
  recommendByNetworkDistance graph i maxDistance
  = Returns (by_network_distance r) ∧
  advancedRecommendation graph i maxDistance = Returns (by_score r).
Proof.
  unfold recommend. cbv zeta.
  bind_returns l2 H2. bind_returns l3 H3. by intros [= <-].
Qed.

Lemma recommend_failure graph maxDistance i e :
  recommend graph maxDistance i = Fails e → e = bad_cast.
Proof.
  unfold recommend. cbv zeta.
  destruct (recommendByNetworkDistance_returns graph i maxDistance) as [l ->].
  rewrite bind_Returns.
  destruct (advancedRecommendation graph i maxDistance) as [l3|e'] eqn:H3;
    [done|].
  intros [= <-]. by eapply advancedRecommendation_failure.
Qed.

Lemma report_loop graph maxDistance l printed rs :
  for_each (λ printed i,
              r ← recommend graph maxDistance i; Returns (printed ++ [r]))
           printed l = Returns rs →
  ∃ new, rs = printed ++ new ∧ for_user <$> new = l ∧
    ∀ r, r ∈ new → recommend graph maxDistance (for_user r) = Returns r.
Proof.
  revert printed. induction l as [|i l IH]; intros printed.
  { intros [= <-]. exists []. rewrite app_nil_r. split_and!; [done|done|].
    by intros r ?%elem_of_nil. }
  rewrite for_each_cons.
  destruct (recommend graph maxDistance i) as [r|] eqn:Hr; [|done].
  rewrite !bind_Returns. intros (new & -> & Hnew & Hall)%IH.
  destruct (recommend_returns _ _ _ _ Hr) as [Hi _].
  exists (r :: new). rewrite <-app_assoc. split_and!; [done|by simpl; f_equal|].
  intros r' [->|?]%elem_of_cons; [by rewrite Hi|by apply Hall].
Qed.

(** The driver reports on the identifiers [1 .. users], in that order, each
    with the results of the three queries on the network it built.  So
    user 0, which it added, is never reported on, and identifier [users],
    which it did not add, is. *)
Theorem demonstrateSocialNetwork_reports (users maxDistance : Z)
    connections (rs : list recommendations) :
  demonstrateSocialNetwork users maxDistance connections = Returns rs →
  for_user <$> rs = seqZ 1 users ∧
  (∀ r, r ∈ rs →
     recommend (build_network users connections) maxDistance (for_user r)
     = Returns r) ∧
  (0 < users → (0 ∉ for_user <$> rs) ∧ users ∈ for_user <$> rs).
Proof.
  unfold demonstrateSocialNetwork. cbv zeta.
  intros (new & -> & Hnew & Hall)%report_loop. simpl.
  split_and!; [done|done|]. intros Hpos. rewrite Hnew, !elem_of_seqZ. lia.
Qed.

Lemma demonstrateSocialNetwork_reports_witness :
  for_user <$> [Recommendations 1 [] [] []; Recommendations 2 [] [] []]
  = seqZ 1 2.
Proof.
  apply (demonstrateSocialNetwork_reports 2 1 []). vm_compute. reflexivity.
Defined.

(** When no connection read names the identifier [users], the last report
    of the driver is empty: that identifier is not a user of the network
    built. *)
Theorem demonstrateSocialNetwork_last (users maxDistance : Z)
    connections (rs : list recommendations) :
  0 < users →
  (∀ a b, (a, b) ∈ connections → a ≠ users ∧ b ≠ users) →
  demonstrateSocialNetwork users maxDistance connections = Returns rs →
  build_network users connections !! users = None ∧
  last rs = Some (Recommendations users [] [] []).
Proof.
  intros Hpos Hconn Hrs.
  assert (build_network users connections !! users = None) as Hnone.
  { apply eq_None_not_Some.
    rewrite build_network_is_Some.
    intros [?|[x [Hx|Hx]]]; [lia|by apply Hconn in Hx as [? ?]..]. }
  split; [done|].
  revert Hrs. unfold demonstrateSocialNetwork. cbv zeta.
  intros (new & -> & Hnew & Hall)%report_loop. simpl.
  assert (seqZ 1 users = seqZ 1 (users - 1) ++ [users]) as Hseq.
  { replace users with (users - 1 + 1) at 1 by lia.
    rewrite seqZ_app by lia. f_equal.
    rewrite seqZ_cons, seqZ_nil by lia. f_equal. lia. }
  rewrite Hseq in Hnew.
  destruct new as [|r new _] using rev_ind.
  { by destruct (seqZ 1 (users - 1)). }
  rewrite fmap_app in Hnew. simpl in Hnew.
  apply app_inj_tail in Hnew as [_ Hr].
  rewrite last_snoc. f_equal.
  assert (r ∈ new ++ [r]) as Hin by set_solver.
  apply Hall, recommend_returns in Hin as (_ & H1 & H2 & H3).
  rewrite Hr in H1, H2, H3.
  assert (getFriends (build_network users connections) users = ∅) as Hf
    by (unfold getFriends; by rewrite Hnone).
  destruct (no_friends_no_recommendations _ _ maxDistance Hf)
    as (E1 & E2 & E3).
  rewrite E1 in H1. rewrite E2 in H2. rewrite E3 in H3.
  destruct r as [u l1 l2 l3]. simpl in *. congruence.
Qed.

Lemma demonstrateSocialNetwork_last_witness :
  build_network 2 [(0, 1)] !! 2 = None ∧
  last [Recommendations 1 [] [] []; Recommendations 2 [] [] []]
  = Some (Recommendations 2 [] [] []).
Proof.
  apply (demonstrateSocialNetwork_last 2 1 [(0, 1)]).
  - lia.
  - intros a b [= -> ->]%list_elem_of_singleton. lia.
  - vm_compute. reflexivity.
Defined.

Lemma report_loop_failure graph maxDistance l printed e :
  for_each (λ printed i,
              r ← recommend graph maxDistance i; Returns (printed ++ [r]))
           printed l = Fails e →
  e = bad_cast.
Proof.
  revert printed. induction l as [|i l IH]; intros printed; [done|].
  rewrite for_each_cons.
  destruct (recommend graph maxDistance i) as [r|e'] eqn:Hr.
  - rewrite !bind_Returns. apply IH.
  - intros [= <-]. by eapply recommend_failure.
Qed.

(** Nothing in the driver throws: it runs to its end unless a score is
    converted to [int] where that conversion is undefined. *)
Theorem demonstrateSocialNetwork_failure (users maxDistance : Z)
    connections :
  (∃ rs, demonstrateSocialNetwork users maxDistance connections
         = Returns rs) ∨
  demonstrateSocialNetwork users maxDistance connections = Fails bad_cast.
Proof.
  destruct (demonstrateSocialNetwork users maxDistance connections)
    as [rs|e] eqn:Hrun; [left; by eexists|right].
  f_equal. by eapply report_loop_failure.
Qed.

End driver.

Lemma getNetworkDistance_one_witness :
  getNetworkDistance chain 2 3 = Returns 1.
Proof.
  apply (getNetworkDistance_one chain 2 3).
  split; [lia|]. vm_compute. set_solver.
Defined.

(** ** Scores that fit an [int] *)

Section double_range.
Import Double.

















End double_range.

(** ** The advanced recommendation within and beyond the range of [int] *)

Section score_range.
Implicit Types (graph : Graph) (scores : gmap Z Double.t).








End score_range.

Section star.
Variable n : Z.








End star.



